(** * Bloom filters of blocknative/bloom: a shallow embedding

    The development follows the Go sources:
    - [bloom.go]: the partitioned filter [Filter] with [New], [Reset],
      [Add], [Check], [bits] and the parameter calculators [k], [m], [s];
    - [option.go]: [params] and the functional options;
    - [scalable.go]: [ScalableFilter];
    - [partitioned/partitioned.go]: the older [PartitionedBloom] with
      [SetHasher], [SetErrorProbability] and its own [Reset].

    Conventions.
    - Go's [uint] is taken to be 64 bits wide; it is modelled as [N] and
      every arithmetic operation of the source that can wrap is followed by
      [u64].
    - [float64] is Rocq's primitive binary64 [float], so comparisons such as
      [e <= 0] are the IEEE ones.  The functions of Go's [math] package and
      the conversions between integers and floats are fields of [GoLib].
    - A [hash.Hash] is a heap object: its digest function and the bytes
      written since the last [Reset].  Filters hold the address, so that
      filters built from one [WithHash] option share the object.
    - A panic is the result [Panic msg]; allocation never fails. *)

From Stdlib Require Import NArith ZArith Lia String PrimFloat Uint63.
From Stdlib.Strings Require Import Byte.
From stdpp Require Import base option list.

Local Open Scope N_scope.

(** ** Machine integers *)

Definition u64 (x : N) : N := x mod 2 ^ 64.

(** ** Results and panics *)

Inductive Result (A : Type) : Type :=
| Ok (a : A)
| Panic (msg : string).
Arguments Ok {A} a.
Arguments Panic {A} msg.

Definition index_out_of_range : string := "runtime error: index out of range".
Definition slice_out_of_range : string := "runtime error: slice bounds out of range".
Definition divide_by_zero : string := "runtime error: integer divide by zero".
Definition nil_dereference : string :=
  "runtime error: invalid memory address or nil pointer dereference".

(** [xs[i]] *)
Definition index {A} (xs : list A) (i : nat) : Result A :=
  match xs !! i with
  | Some x => Ok x
  | None => Panic index_out_of_range
  end.

(** [xs[i]] for an [int] index, which may be negative *)
Definition index_int {A} (xs : list A) (i : Z) : Result A :=
  if (i <? 0)%Z then Panic index_out_of_range else index xs (Z.to_nat i).

(** [xs[lo:hi]]; the capacity of a slice is taken to be its length *)
Definition slice {A} (xs : list A) (lo hi : nat) : Result (list A) :=
  if bool_decide (lo ≤ hi ∧ hi ≤ length xs)%nat
  then Ok (take (hi - lo) (drop lo xs))
  else Panic slice_out_of_range.

(** ** The bit vector of github.com/bits-and-blooms/bitset

    A [BitSet] has a length and an array of 64-bit words; the array is
    modelled by the one natural number whose binary digits are its bits. *)

Module bitset.

Record BitSet : Type := mk { length : N; set : N }.

Definition New (length : N) : BitSet := mk length 0.

(** [Set] grows the vector when the index is beyond its length. *)
Definition Set_ (b : BitSet) (i : N) : BitSet :=
  mk (if length b <=? i then i + 1 else length b) (N.setbit (set b) i).

Definition Test (b : BitSet) (i : N) : bool :=
  if length b <=? i then false else N.testbit (set b) i.

Definition ClearAll (b : BitSet) : BitSet := mk (length b) 0.

Fixpoint popcount (x : positive) : N :=
  match x with
  | xH => 1
  | xO y => popcount y
  | xI y => 1 + popcount y
  end.

Definition Count (b : BitSet) : N :=
  match set b with
  | N0 => 0
  | Npos x => popcount x
  end.

End bitset.

(** ** Hash objects *)

Module hash.

(** The state of a [hash.Hash]: the algorithm, as the function from the
    bytes written so far to their digest, and those bytes. *)
Record Hash : Type := mk { digest : list byte → list byte; written : list byte }.

End hash.

Abbreviation Heap := (list hash.Hash).

(** A method's effect: it reads and updates the hash objects, and it returns
  or panics. *)
Definition M (A : Type) : Type := Heap → Result (A * Heap).

Definition ret {A} (a : A) : M A := λ σ, Ok (a, σ).

Definition bind {A B} (c : M A) (f : A → M B) : M B :=
λ σ, match c σ with
     | Ok (a, σ') => f a σ'
     | Panic msg => Panic msg
     end.

Definition panic {A} (msg : string) : M A := λ _, Panic msg.

Definition lift {A} (r : Result A) : M A :=
λ σ, match r with
     | Ok a => Ok (a, σ)
     | Panic msg => Panic msg
     end.

Notation "'let!' x ':=' c 'in' f" := (bind c (λ x, f))
  (at level 10, x pattern, c at level 100, f at level 200).
Notation "'do!' c 'in' f" := (bind c (λ _, f))
  (at level 10, c at level 100, f at level 200).

(** A value of interface type [hash.Hash]: nil, or the address of an object *)
Definition HashRef : Type := option nat.

Definition deref (r : HashRef) : M (nat * hash.Hash) :=
λ σ, match r with
     | None => Panic nil_dereference
     | Some l => match σ !! l with
                 | Some ho => Ok ((l, ho), σ)
                 | None => Panic nil_dereference
                 end
     end.

Definition store (l : nat) (ho : hash.Hash) : M unit :=
λ σ, Ok (tt, <[l := ho]> σ).

Definition alloc (ho : hash.Hash) : M HashRef :=
λ σ, Ok (Some (List.length σ), σ ++ [ho]).

Definition hash_Reset (r : HashRef) : M unit :=
let! (l, ho) := deref r in store l (hash.mk (hash.digest ho) []).

Definition hash_Write (r : HashRef) (p : list byte) : M unit :=
let! (l, ho) := deref r in
store l (hash.mk (hash.digest ho) (hash.written ho ++ p)).

(** [h.Sum(b)] appends the digest of what was written to [b]. *)
Definition hash_Sum (r : HashRef) (b : list byte) : M (list byte) :=
let! (_, ho) := deref r in ret (b ++ hash.digest ho (hash.written ho)).

(** [binary.BigEndian.Uint32] *)
Definition byte_val (x : byte) : N := Byte.to_N x.

Definition BigEndian_Uint32 (b : list byte) : Result N :=
match b with
| b0 :: b1 :: b2 :: b3 :: _ =>
    Ok (N.lor (N.lor (N.lor (byte_val b3) (N.shiftl (byte_val b2) 8))
                     (N.shiftl (byte_val b1) 16))
              (N.shiftl (byte_val b0) 24))
| _ => Panic index_out_of_range
end.

(** ** What the sources import: Go's [math], the numeric conversions, and
  the digest functions of the two built-in hashes *)

Class GoLib : Type := {
math_Log2 : float → float;
math_Log : float → float;
math_Ceil : float → float;
math_Exp : float → float;
math_Pow : float → float → float;
(** [float64(x)] for an integer [x] *)
float64_of_uint : N → float;
(** [uint(x)] for a float [x] *)
uint_of_float64 : float → N;
(** the digest computed by [cityhash.New64()] *)
cityhash_New64 : list byte → list byte;
(** the digest computed by [fnv.New64()] *)
fnv_New64 : list byte → list byte;
}.

(** ** option.go *)

Module params.

Record t : Type := mk { h : HashRef; e : float; p : float }.

End params.

(** An [Option] is a function that updates a [params] in place. *)
Definition Option : Type := params.t → params.t.

(** The literals [.001] and [.5] as binary64 values *)
Definition default_e : float := 0x1.0624dd2f1a9fcp-10%float.
Definition default_p : float := 0x1p-1%float.

Section Options.
Context `{!GoLib}.

Definition WithHash (h : HashRef) : M Option :=
  let! h' := match h with
             | None => alloc (hash.mk cityhash_New64 [])
             | Some _ => ret h
             end in
  ret (λ ps, params.mk h' (params.e ps) (params.p ps)).

Definition WithErrorRate (e : float) : Option :=
  let e' := if (e <=? 0)%float then default_e else e in
  λ ps, params.mk (params.h ps) e' (params.p ps).

Definition WithFillRatio (p : float) : Option :=
  let p' := if (p <=? 0)%float then default_p else p in
  λ ps, params.mk (params.h ps) (params.e ps) p'.

Definition withDefault (opt : list Option) : M (list Option) :=
  let! o := WithHash None in
  ret ([o; WithErrorRate 0; WithFillRatio 0] ++ opt).

(** [for _, option := range opts { option(&ps) }] *)
Definition apply_options (opts : list Option) (ps : params.t) : params.t :=
  foldl (λ acc option, option acc) ps opts.

End Options.

(** ** bloom.go: the parameter calculators *)

Section Calculators.
Context `{!GoLib}.

Definition k (e : float) : N :=
  uint_of_float64 (math_Ceil (math_Log2 (1 / e))).

Definition m (n : N) (p e : float) : N :=
  uint_of_float64
    (math_Ceil (float64_of_uint n
                / ((math_Log p * math_Log (1 - p)) / abs (math_Log e)))).

Definition s (m k : N) : N :=
  uint_of_float64 (math_Ceil (float64_of_uint m / float64_of_uint k)).

Definition makePartitions (k s : N) : list bitset.BitSet :=
  replicate (N.to_nat k) (bitset.New s).

End Calculators.

(** ** bloom.go: the partitioned filter

    [Filter] embeds [params]; the record lists the promoted fields [h], [e]
    and [p] with the filter's own.  [partitioned.PartitionedBloom] has the
    same ten fields and uses the same record. *)

Module Filter.

Record t : Type := mk {
  h : HashRef;
  e : float;
  p : float;
  m : N;
  k : N;
  n : N;
  c : N;
  s : N;
  b : list bitset.BitSet;
  bs : list N;
}.

Definition with_h (f : t) (x : HashRef) : t :=
  mk x (e f) (p f) (m f) (k f) (n f) (c f) (s f) (b f) (bs f).
Definition with_e (f : t) (x : float) : t :=
  mk (h f) x (p f) (m f) (k f) (n f) (c f) (s f) (b f) (bs f).
Definition with_c (f : t) (x : N) : t :=
  mk (h f) (e f) (p f) (m f) (k f) (n f) x (s f) (b f) (bs f).
Definition with_b (f : t) (x : list bitset.BitSet) : t :=
  mk (h f) (e f) (p f) (m f) (k f) (n f) (c f) (s f) x (bs f).
Definition with_bs (f : t) (x : list N) : t :=
  mk (h f) (e f) (p f) (m f) (k f) (n f) (c f) (s f) (b f) x.

(** The loop of [bits]:
    [for i := range f.bs[:f.k] { f.bs[i] = (uint(a) + uint(b)*uint(i)) % f.s }],
    from index [i], with [cnt] rounds to go. *)
Fixpoint bits_loop (a b s : N) (i : N) (cnt : nat) (bs : list N) : Result (list N) :=
  match cnt with
  | O => Ok bs
  | S cnt' =>
      if s =? 0 then Panic divide_by_zero
      else bits_loop a b s (i + 1) cnt'
             (<[N.to_nat i := u64 (a + u64 (b * i)) mod s]> bs)
  end.

Definition bits (f : t) (item : list byte) : M t :=
  do! hash_Reset (h f) in
  do! hash_Write (h f) item in
  let! s := hash_Sum (h f) [] in
  let! s48 := lift (slice s 4 8) in
  let! a := lift (BigEndian_Uint32 s48) in
  let! s04 := lift (slice s 0 4) in
  let! b := lift (BigEndian_Uint32 s04) in
  let! _ := lift (slice (bs f) 0 (N.to_nat (k f))) in
  let! bs' := lift (bits_loop a b (Filter.s f) 0 (N.to_nat (k f)) (bs f)) in
  ret (with_bs f bs').

(** The loop of [Add]: [for i, v := range f.bs[:f.k] { f.b[i].Set(v) }] *)
Fixpoint Add_loop (i : nat) (vs : list N) (b : list bitset.BitSet)
  : Result (list bitset.BitSet) :=
  match vs with
  | [] => Ok b
  | v :: vs' =>
      match b !! i with
      | None => Panic index_out_of_range
      | Some x => Add_loop (S i) vs' (<[i := bitset.Set_ x v]> b)
      end
  end.

Definition Add (f : t) (item : list byte) : M t :=
  let! f := bits f item in
  let! vs := lift (slice (bs f) 0 (N.to_nat (k f))) in
  let! b' := lift (Add_loop 0 vs (b f)) in
  ret (with_c (with_b f b') (u64 (c f + 1))).

(** The loop of [Check], which returns at the first bit that is not set *)
Fixpoint Check_loop (i : nat) (vs : list N) (b : list bitset.BitSet) : Result bool :=
  match vs with
  | [] => Ok true
  | v :: vs' =>
      match b !! i with
      | None => Panic index_out_of_range
      | Some x => if bitset.Test x v then Check_loop (S i) vs' b else Ok false
      end
  end.

(** [Check] returns its answer and leaves the scratch buffer and the hash
    object written. *)
Definition Check (f : t) (item : list byte) : M (bool * t) :=
  let! f := bits f item in
  let! vs := lift (slice (bs f) 0 (N.to_nat (k f))) in
  let! r := lift (Check_loop 0 vs (b f)) in
  ret (r, f).

Definition Count (f : t) : N := c f.

Definition Reset (f : t) : M t :=
  let f := with_b f (map bitset.ClearAll (b f)) in
  do! hash_Reset (h f) in
  ret f.

Section Ratios.
Context `{!GoLib}.

Definition EstimatedFillRatio (f : t) : float :=
  (1 - math_Exp ((- float64_of_uint (c f)) / float64_of_uint (s f)))%float.

Definition FillRatio (f : t) : Result float :=
  match slice (b f) 0 (N.to_nat (k f)) with
  | Panic msg => Panic msg
  | Ok vs =>
      let t := foldl (λ t v, t + float64_of_uint (bitset.Count v) / float64_of_uint (s f))%float
                     0%float vs in
      Ok (t / float64_of_uint (k f))%float
  end.

End Ratios.

End Filter.

Section New.
Context `{!GoLib}.

Definition New (n : N) (opt : list Option) : M Filter.t :=
  if n =? 0 then panic "n == 0"
  else
    let! opts := withDefault opt in
    let ps := apply_options opts (params.mk None 0 0) in
    let k := k (params.e ps) in
    let m := m n (params.p ps) (params.e ps) in
    let s := s m k in
    ret (Filter.mk (params.h ps) (params.e ps) (params.p ps) m k n 0 s
           (makePartitions k s) (replicate (N.to_nat k) 0)).

End New.

(** ** scalable.go *)

Module ScalableFilter.

(** [r] is a [float32] in the source and is only read as [float64(sbf.r)];
    the field holds that value. *)
Record t : Type := mk {
  h : HashRef;
  e : float;
  p : float;
  opt : list Option;
  n : N;
  c : N;
  r : float;
  bfs : list Filter.t;
}.

Definition with_c (sbf : t) (x : N) : t :=
  mk (h sbf) (e sbf) (p sbf) (opt sbf) (n sbf) x (r sbf) (bfs sbf).
Definition with_bfs (sbf : t) (x : list Filter.t) : t :=
  mk (h sbf) (e sbf) (p sbf) (opt sbf) (n sbf) (c sbf) (r sbf) x.

(** [float32(0.9)] widened to binary64 *)
Definition r_default : float := 0x1.ccccccp-1%float.

Section Methods.
Context `{!GoLib}.

Definition addBloomFilter (sbf : t) : M t :=
  let e := (e sbf * math_Pow (r sbf)
                      (float64_of_uint (N.of_nat (List.length (bfs sbf)))))%float in
  let! bf := New (n sbf) (opt sbf ++ [WithErrorRate e]) in
  ret (with_bfs sbf (bfs sbf ++ [bf])).

Definition Reset (sbf : t) : M t :=
  addBloomFilter (with_c (with_bfs sbf []) 0).

Definition EstimatedFillRatio (sbf : t) : Result float :=
  match index_int (bfs sbf) (Z.of_nat (List.length (bfs sbf)) - 1) with
  | Ok f => Ok (Filter.EstimatedFillRatio f)
  | Panic msg => Panic msg
  end.

(** The loop of [FillRatio]: [for i := range sbf.bfs { t += sbf.bfs[i].FillRatio() }] *)
Fixpoint FillRatio_loop (t : float) (fs : list Filter.t) : Result float :=
  match fs with
  | [] => Ok t
  | f :: fs' =>
      match Filter.FillRatio f with
      | Ok x => FillRatio_loop (t + x)%float fs'
      | Panic msg => Panic msg
      end
  end.

Definition FillRatio (sbf : t) : Result float :=
  match FillRatio_loop 0%float (bfs sbf) with
  | Ok t => Ok (t / float64_of_uint (N.of_nat (List.length (bfs sbf))))%float
  | Panic msg => Panic msg
  end.

Definition Add (sbf : t) (item : list byte) : M t :=
  let i := (Z.of_nat (List.length (bfs sbf)) - 1)%Z in
  let! last := lift (index_int (bfs sbf) i) in
  let! (sbf, i) :=
    if (p sbf <? Filter.EstimatedFillRatio last)%float
    then let! sbf := addBloomFilter sbf in ret (sbf, (i + 1)%Z)
    else ret (sbf, i) in
  let! f := lift (index_int (bfs sbf) i) in
  let! f := Filter.Add f item in
  ret (with_c (with_bfs sbf (<[Z.to_nat i := f]> (bfs sbf))) (u64 (c sbf + 1))).

(** The loop of [Check], [for i := l - 1; i >= 0; i--], with [cnt = i + 1];
    each sub-filter that is asked keeps what its [Check] wrote. *)
Fixpoint Check_loop (cnt : nat) (fs : list Filter.t) (item : list byte)
  : M (bool * list Filter.t) :=
  match cnt with
  | O => ret (false, fs)
  | S i =>
      let! f := lift (index fs i) in
      let! (r, f) := Filter.Check f item in
      let fs := <[i := f]> fs in
      if r then ret (true, fs) else Check_loop i fs item
  end.

Definition Check (sbf : t) (item : list byte) : M (bool * t) :=
  let! (r, fs) := Check_loop (List.length (bfs sbf)) (bfs sbf) item in
  ret (r, with_bfs sbf fs).

Definition Count (sbf : t) : N := c sbf.

End Methods.

End ScalableFilter.

Section NewScalable.
Context `{!GoLib}.

Definition NewScalable (n : N) (opt : list Option) : M ScalableFilter.t :=
  if n =? 0 then panic "n == 0"
  else
    let! opts := withDefault opt in
    let ps := apply_options opts (params.mk None 0 0) in
    ScalableFilter.addBloomFilter
      (ScalableFilter.mk (params.h ps) (params.e ps) (params.p ps) opt n 0
         ScalableFilter.r_default []).

End NewScalable.

(** ** partitioned/partitioned.go *)

Module partitioned.

Section Methods.
Context `{!GoLib}.

(** Modelled from the spec: [bloom.K], [bloom.M] and [bloom.S], the exported
    parameter calculators that partitioned.go calls, are not among the
    sources.  The spec gives [k = ceil(log2(1/e))],
    [m = ceil(n / ((ln(p)·ln(1-p)) / |ln(e)|))] and [s = ceil(m / k)], which
    is what [k], [m] and [s] of bloom.go compute. *)
Definition bloom_K (e : float) : N := k e.
Definition bloom_M (n : N) (p e : float) : N := m n p e.
Definition bloom_S (m k : N) : N := s m k.

Definition New (n : N) : M Filter.t :=
  let p := default_p in
  let e := default_e in
  let k := bloom_K e in
  let m := bloom_M n p e in
  let s := bloom_S m k in
  let! h := alloc (hash.mk fnv_New64 []) in
  ret (Filter.mk h e p m k n 0 s (makePartitions k s) (replicate (N.to_nat k) 0)).

Definition SetHasher (bf : Filter.t) (h : HashRef) : Filter.t :=
  Filter.with_h bf h.

Definition Reset (bf : Filter.t) : M Filter.t :=
  let k := bloom_K (Filter.e bf) in
  let m := bloom_M (Filter.n bf) (Filter.p bf) (Filter.e bf) in
  let s := bloom_S m k in
  let bf := Filter.mk (Filter.h bf) (Filter.e bf) (Filter.p bf) m k (Filter.n bf)
              (Filter.c bf) s (makePartitions k s) (replicate (N.to_nat k) 0) in
  match Filter.h bf with
  | None => let! h := alloc (hash.mk fnv_New64 []) in ret (Filter.with_h bf h)
  | Some _ => do! hash_Reset (Filter.h bf) in ret bf
  end.

Definition SetErrorProbability (bf : Filter.t) (e : float) : Filter.t :=
  Filter.with_e bf e.

Definition bits (bf : Filter.t) (item : list byte) : M Filter.t :=
  do! hash_Reset (Filter.h bf) in
  do! hash_Write (Filter.h bf) item in
  let! s := hash_Sum (Filter.h bf) [] in
  let! s48 := lift (slice s 4 8) in
  let! a := lift (BigEndian_Uint32 s48) in
  let! s04 := lift (slice s 0 4) in
  let! b := lift (BigEndian_Uint32 s04) in
  let! _ := lift (slice (Filter.bs bf) 0 (N.to_nat (Filter.k bf))) in
  let! bs' := lift (Filter.bits_loop a b (Filter.s bf) 0 (N.to_nat (Filter.k bf))
                      (Filter.bs bf)) in
  ret (Filter.with_bs bf bs').

Definition Add (bf : Filter.t) (item : list byte) : M Filter.t :=
  let! bf := bits bf item in
  let! vs := lift (slice (Filter.bs bf) 0 (N.to_nat (Filter.k bf))) in
  let! b' := lift (Filter.Add_loop 0 vs (Filter.b bf)) in
  ret (Filter.with_c (Filter.with_b bf b') (u64 (Filter.c bf + 1))).

Definition Check (bf : Filter.t) (item : list byte) : M (bool * Filter.t) :=
  let! bf := bits bf item in
  let! vs := lift (slice (Filter.bs bf) 0 (N.to_nat (Filter.k bf))) in
  let! r := lift (Filter.Check_loop 0 vs (Filter.b bf)) in
  ret (r, bf).

Definition Count (bf : Filter.t) : N := Filter.c bf.

End Methods.

End partitioned.

(** ** A sample library, for running the definitions *)

Module Sample.

Definition byte_of (x : N) : byte := default x00 (Byte.of_N (x mod 256)).

(** FNV-1, 64 bits, as in Go's hash/fnv: offset basis, then multiply and xor
    for every byte; the digest is the state, big-endian. *)
Definition fnv64 (data : list byte) : list byte :=
  let hv := foldl (λ hv x, N.lxor (u64 (hv * 1099511628211)) (byte_val x))
                  14695981039346656037 data in
  map (λ i, byte_of (N.shiftr hv (8 * i))) [7; 6; 5; 4; 3; 2; 1; 0].

(** Stand-ins for the functions of Go's runtime and [math] package.  The
    conversions are exact below [2^53]; the logarithms interpolate linearly
    between powers of two, [Exp] is [(1 + x/1024)^1024] and [Pow] multiplies
    repeatedly.  They serve to run the definitions on examples. *)
Definition to_uint (x : float) : N :=
  let (f, ex) := frshiftexp x in
  let mt := Z.to_N (Uint63.to_Z (normfr_mantissa f)) in
  let sh := (Uint63.to_Z ex - 2101 - 53)%Z in
  if (sh <? 0)%Z then N.shiftr mt (Z.to_N (- sh)) else N.shiftl mt (Z.to_N sh).

Definition of_uint (x : N) : float := of_uint63 (Uint63.of_Z (Z.of_N x)).

Definition ceil (x : float) : float :=
  let t := of_uint (to_uint x) in
  if (t <? x)%float then (t + 1)%float else t.

Definition log2 (x : float) : float :=
  let (f, ex) := frshiftexp x in
  let ex := (Uint63.to_Z ex - 2101 - 1)%Z in
  let ex := if (ex <? 0)%Z then (- of_uint (Z.to_N (- ex)))%float
            else of_uint (Z.to_N ex) in
  (ex + (2 * f - 1))%float.

Definition ln (x : float) : float := (log2 x * 0x1.62e42fefa39efp-1)%float.

Definition exp (x : float) : float :=
  if (x <? -700)%float then 0%float
  else Nat.iter 10 (λ y, y * y)%float (1 + x / 1024)%float.

Definition pow (x y : float) : float :=
  Nat.iter (N.to_nat (to_uint y)) (λ z, z * x)%float 1%float.

Definition lib : GoLib := {|
  math_Log2 := log2;
  math_Log := ln;
  math_Ceil := ceil;
  math_Exp := exp;
  math_Pow := pow;
  float64_of_uint := of_uint;
  uint_of_float64 := to_uint;
  cityhash_New64 := fnv64;
  fnv_New64 := fnv64;
|}.

End Sample.


(** * Vocabulary of the statements *)

(** The value of a byte string read as a big-endian number *)
Definition be_value (bytes : list byte) : N :=
  foldl (λ acc x, 256 * acc + byte_val x) 0 bytes.

(** The two halves of a digest that [bits] reads *)
Definition digest_a (D : list byte) : N := be_value (take 4 (drop 4 D)).
Definition digest_b (D : list byte) : N := be_value (take 4 D).

(** The index that the loop of [bits] stores at position [i] *)
Definition bit_index (a b s i : N) : N := u64 (a + u64 (b * i)) mod s.

Definition indices (D : list byte) (k s : N) : list N :=
  map (λ i, bit_index (digest_a D) (digest_b D) s (N.of_nat i)) (seq 0 (N.to_nat k)).

(** The hash object a reference points to *)
Definition hash_at (σ : Heap) (r : HashRef) : option hash.Hash :=
  match r with
  | Some l => σ !! l
  | None => None
  end.

(** What [Add]'s loop leaves in the partitions *)
Definition set_bits (i : nat) (vs : list N) (b : list bitset.BitSet) : list bitset.BitSet :=
  imap (λ j x, if decide (i ≤ j)%nat
               then match vs !! (j - i)%nat with
                    | Some v => bitset.Set_ x v
                    | None => x
                    end
               else x) b.

(** Every index in [vs] is set in the partition of its position, the first
    index belonging to partition [i] *)
Definition all_set (i : nat) (vs : list N) (b : list bitset.BitSet) : Prop :=
  ∀ j v, vs !! j = Some v → ∃ x, b !! (i + j)%nat = Some x ∧ bitset.Test x v = true.

(** The filter as [bits] leaves it for a key with digest [D] *)
Definition bits_state (f : Filter.t) (D : list byte) : Filter.t :=
  Filter.with_bs f (indices D (Filter.k f) (Filter.s f)
                    ++ drop (N.to_nat (Filter.k f)) (Filter.bs f)).

(** The conditions under which [bits] returns for a key with digest [D] *)
Definition bits_ready (f : Filter.t) (D : list byte) : Prop :=
  (8 ≤ length D)%nat
  ∧ (N.to_nat (Filter.k f) ≤ length (Filter.bs f))%nat
  ∧ (Filter.k f = 0 ∨ Filter.s f ≠ 0).

(** The filter as [Add] leaves it for a key with digest [D] *)
Definition Add_state (f : Filter.t) (D : list byte) : Filter.t :=
  Filter.with_c
    (Filter.with_b (bits_state f D)
       (set_bits 0 (indices D (Filter.k f) (Filter.s f)) (Filter.b f)))
    (u64 (Filter.c f + 1)).

(** The hash object after [bits] has hashed [item] with it *)
Definition hashed (ho : hash.Hash) (item : list byte) : hash.Hash :=
  hash.mk (hash.digest ho) item.

(** The calls that may follow an [Add] while the filter is not reset *)
Inductive op : Type :=
| OpAdd (item : list byte)
| OpCheck (item : list byte).

Fixpoint Filter_run (ops : list op) (f : Filter.t) : M Filter.t :=
  match ops with
  | [] => ret f
  | OpAdd item :: ops => let! f := Filter.Add f item in Filter_run ops f
  | OpCheck item :: ops => let! (_, f) := Filter.Check f item in Filter_run ops f
  end.

(** The key with digest [D] is recorded in the filter: [bits] returns for it
    and finds every one of its bits set. *)
Definition recorded (f : Filter.t) (D : list byte) : Prop :=
  bits_ready f D ∧ all_set 0 (indices D (Filter.k f) (Filter.s f)) (Filter.b f).

(** The filter's hash object is allocated and computes the digest [d]. *)
Definition hashes_with (σ : Heap) (f : Filter.t) (d : list byte → list byte) : Prop :=
  ∃ ho, hash_at σ (Filter.h f) = Some ho ∧ hash.digest ho = d.

(** The calls on a scalable filter *)
Inductive call : Type :=
| CallAdd (item : list byte)
| CallCheck (item : list byte)
| CallReset
| CallFillRatio
| CallEstimatedFillRatio.

Section Scalable_run.
Context `{!GoLib}.

Fixpoint Scalable_run (calls : list call) (sbf : ScalableFilter.t) : M ScalableFilter.t :=
  match calls with
  | [] => ret sbf
  | CallAdd item :: calls =>
      let! sbf := ScalableFilter.Add sbf item in Scalable_run calls sbf
  | CallCheck item :: calls =>
      let! (_, sbf) := ScalableFilter.Check sbf item in Scalable_run calls sbf
  | CallReset :: calls =>
      let! sbf := ScalableFilter.Reset sbf in Scalable_run calls sbf
  | CallFillRatio :: calls =>
      let! _ := lift (ScalableFilter.FillRatio sbf) in Scalable_run calls sbf
  | CallEstimatedFillRatio :: calls =>
      let! _ := lift (ScalableFilter.EstimatedFillRatio sbf) in Scalable_run calls sbf
  end.

End Scalable_run.

(** Every hash object of the heap produces digests of eight bytes or more. *)
Definition digests_ok (σ : Heap) : Prop :=
  ∀ l ho, σ !! l = Some ho → ∀ x, (8 ≤ length (hash.digest ho x))%nat.

(** The hash objects of [σ] are still there in [σ'], with the same digest
    functions. *)
Definition heap_le (σ σ' : Heap) : Prop :=
  ∀ l ho, σ !! l = Some ho → ∃ ho', σ' !! l = Some ho' ∧ hash.digest ho' = hash.digest ho.

(** [bits], [Add] and [Check] run on the filter without a panic, whatever the
    key, when the digests are long enough. *)
Definition usable (σ : Heap) (f : Filter.t) : Prop :=
  is_Some (hash_at σ (Filter.h f))
  ∧ (N.to_nat (Filter.k f) ≤ length (Filter.bs f))%nat
  ∧ (N.to_nat (Filter.k f) ≤ length (Filter.b f))%nat
  ∧ (Filter.k f = 0 ∨ Filter.s f ≠ 0).

(** [f'] is [f] after some calls of [Add] and [Check]: the same hash
    object, the same [k] and [s], and every bit that was set still set. *)
Definition filter_le (f f' : Filter.t) : Prop :=
  Filter.h f' = Filter.h f ∧ Filter.k f' = Filter.k f ∧ Filter.s f' = Filter.s f
  ∧ (length (Filter.bs f) ≤ length (Filter.bs f'))%nat
  ∧ ∀ i x, Filter.b f !! i = Some x →
      ∃ x', Filter.b f' !! i = Some x'
            ∧ ∀ v, bitset.Test x v = true → bitset.Test x' v = true.

(** Some sub-filter has the key recorded, and the sub-filters after it are
    usable. *)
Definition key_kept (σ : Heap) (fs : list Filter.t) (item : list byte) : Prop :=
  ∃ j f d, fs !! j = Some f ∧ hashes_with σ f d ∧ recorded f (d item)
           ∧ ∀ j' g, (j < j')%nat → fs !! j' = Some g → usable σ g.

Section New_state.
Context `{!GoLib}.

(** The [params] that [New] and [NewScalable] arrive at, when the default
    hash object was allocated at address [l] *)
Definition New_params (opt : list Option) (l : nat) : params.t :=
  apply_options opt (params.mk (Some l) default_e default_p).

(** The filter that [New n opt] returns *)
Definition New_state (n : N) (opt : list Option) (l : nat) : Filter.t :=
  let ps := New_params opt l in
  let k := k (params.e ps) in
  let m := m n (params.p ps) (params.e ps) in
  let s := s m k in
  Filter.mk (params.h ps) (params.e ps) (params.p ps) m k n 0 s
    (makePartitions k s) (replicate (N.to_nat k) 0).

(** The error rate that [addBloomFilter] passes on *)
Definition tightened (sbf : ScalableFilter.t) : float :=
  (ScalableFilter.e sbf
   * math_Pow (ScalableFilter.r sbf)
       (float64_of_uint (N.of_nat (length (ScalableFilter.bfs sbf)))))%float.

End New_state.

(** A fresh [cityhash.New64()] *)
Definition cityhash_obj `{!GoLib} : hash.Hash := hash.mk cityhash_New64 [].

(** The index of partition [i] as the specification gives it, in unbounded
    arithmetic: [(a + i·b) mod s] with [a] the big-endian value of bytes
    [4:8) of the digest and [b] that of bytes [0:4) *)
Definition spec_index (D : list byte) (s i : N) : N :=
  (be_value (take 4 (drop 4 D)) + i * be_value (take 4 D)) mod s.

(** What it means for [bits], [Add] and [Check] to use the indices
    [spec_index]: [bits] stores them in the scratch buffer, [Add] sets the bit
    of that index in each partition, and [Check] answers whether all those
    bits are set. *)
Definition uses_spec_indices
    (bits Add : Filter.t → list byte → M Filter.t)
    (Check : Filter.t → list byte → M (bool * Filter.t)) : Prop :=
  ∀ f item σ ho,
    hash_at σ (Filter.h f) = Some ho →
    bits_ready f (hash.digest ho item) →
    (N.to_nat (Filter.k f) ≤ length (Filter.b f))%nat →
    Filter.k f ≤ 2 ^ 32 →
    let idx i := spec_index (hash.digest ho item) (Filter.s f) i in
    (∃ f' σ', bits f item σ = Ok (f', σ')
              ∧ ∀ i, i < Filter.k f → Filter.bs f' !! N.to_nat i = Some (idx i))
    ∧ (∃ f' σ', Add f item σ = Ok (f', σ')
                ∧ ∀ i, i < Filter.k f →
                    Filter.b f' !! N.to_nat i
                    = (λ x, bitset.Set_ x (idx i)) <$> Filter.b f !! N.to_nat i)
    ∧ (∃ r f' σ', Check f item σ = Ok ((r, f'), σ')
                  ∧ (r = true ↔
                     ∀ i, i < Filter.k f →
                       ∃ x, Filter.b f !! N.to_nat i = Some x
                            ∧ bitset.Test x (idx i) = true)).

(** [f'] is [f] after some calls of [Check]: only the scratch buffer may
    differ. *)
Definition filter_same (f f' : Filter.t) : Prop :=
  Filter.h f' = Filter.h f ∧ Filter.k f' = Filter.k f ∧ Filter.s f' = Filter.s f
  ∧ Filter.b f' = Filter.b f ∧ Filter.c f' = Filter.c f
  ∧ (length (Filter.bs f) ≤ length (Filter.bs f'))%nat.

(** The rates as [WithErrorRate] and [WithFillRatio] store them *)
Definition clamp_e (e : float) : float := if (e <=? 0)%float then default_e else e.
Definition clamp_p (p : float) : float := if (p <=? 0)%float then default_p else p.

(** The keys that a sequence of calls adds *)
Definition added (ops : list op) : list (list byte) :=
  omap (λ o, match o with OpAdd item => Some item | OpCheck _ => None end) ops.

(** The index in partition [i] of a key with digest [D] *)
Definition index_of (D : list byte) (s : N) (i : nat) : N :=
  bit_index (digest_a D) (digest_b D) s (N.of_nat i).

(** The filter has [k] partitions of [s] bits each, and the bits set in them
    are those of [keys], hashed with [d], and no others. *)
Definition holds (f : Filter.t) (d : list byte → list byte) (keys : list (list byte)) : Prop :=
  length (Filter.b f) = N.to_nat (Filter.k f)
  ∧ ∀ i x, Filter.b f !! i = Some x →
      bitset.length x = Filter.s f
      ∧ ∀ v, bitset.Test x v = true
             ↔ ∃ Y, Y ∈ keys ∧ index_of (d Y) (Filter.s f) i = v.

(** No partition has a bit set. *)
Definition cleared (f : Filter.t) : Prop :=
  ∀ i x v, Filter.b f !! i = Some x → bitset.Test x v = false.

(** The number of [Add] calls since the last [Reset], from [acc] before the
    calls *)
Fixpoint adds_since_reset (calls : list call) (acc : N) : N :=
  match calls with
  | [] => acc
  | CallAdd _ :: calls => adds_since_reset calls (acc + 1)
  | CallReset :: calls => adds_since_reset calls 0
  | _ :: calls => adds_since_reset calls acc
  end.

(** The sum of the sub-filters' counters *)
Definition sum_counts (fs : list Filter.t) : N :=
  foldr (λ f acc, Filter.c f + acc) 0 fs.

(** The option leaves the hash of the [params] alone. *)
Definition keeps_hash (o : Option) : Prop :=
  ∀ ps, params.h (o ps) = params.h ps.

(** The sub-filter has every bit of the key [X] set, hashing with its hash
    object in [σ]. *)
Definition sub_filter_has (σ : Heap) (f : Filter.t) (X : list byte) : Prop :=
  ∃ ho, hash_at σ (Filter.h f) = Some ho
        ∧ all_set 0 (indices (hash.digest ho X) (Filter.k f) (Filter.s f)) (Filter.b f).

(** Sample inputs: a heap with one FNV object, a small filter with three
    partitions of five bits that hashes with it, and a second hash object
    whose digest is the FNV digest reversed. *)
Definition key (s : string) : list byte := list_byte_of_string s.

Definition sample_heap : Heap :=
  [hash.mk Sample.fnv64 []; hash.mk (λ x, rev (Sample.fnv64 x)) []].

Definition sample_filter : Filter.t :=
  Filter.mk (Some 0%nat) default_e default_p 15 3 5 0 5
    (replicate 3 (bitset.New 5)) [0; 0; 0].

(** Reading a result off, for the sample runs *)
Definition is_Ok {A} (r : Result A) : bool :=
  match r with
  | Ok _ => true
  | Panic _ => false
  end.

Definition ok_or {A} (d : A) (r : Result A) : A :=
  match r with
  | Ok a => a
  | Panic _ => d
  end.

Definition sample_scalable : ScalableFilter.t :=
  ScalableFilter.mk None 0 0 [] 0 0 ScalableFilter.r_default [].

(** Sample runs.  Each name abbreviates what the call returns (or the
    default, should it panic); the lemmas at the end establish that it does
    return. *)
Definition d1 : Filter.t * Heap := (sample_filter, []).
Definition d2 : bool * Filter.t * Heap := (false, sample_filter, []).
Definition d3 : ScalableFilter.t * Heap := (sample_scalable, []).

(** On the small filter: [Add "a"], then [Add "b"] and [Check "c"] *)
Definition ops_bc : list op := [OpAdd (key "b"); OpCheck (key "c")].
Abbreviation small_1 := (ok_or d1 (Filter.Add sample_filter (key "a") sample_heap)).
Abbreviation small_2 := (ok_or d1 (Filter_run ops_bc small_1.1 small_1.2)).

(** On the small filter: [Check "a"], then [Check] of "b", "a" and "c" *)
Definition keys_bac : list (list byte) := [key "b"; key "a"; key "c"].
Abbreviation read_1 := (ok_or d2 (Filter.Check sample_filter (key "a") sample_heap)).
Abbreviation read_2 := (ok_or d1 (Filter_run (OpCheck <$> keys_bac) read_1.1.2 read_1.2)).

(** [New(1000)], [Add "a"], [Reset] *)
Abbreviation new_0 := (ok_or d1 (New 1000 [] [])).
Abbreviation new_1 := (ok_or d1 (Filter.Add new_0.1 (key "a") new_0.2)).
Abbreviation new_2 := (ok_or d1 (Filter.Reset new_1.1 new_1.2)).

(** [partitioned.New(1000)], [Add "a"], [Reset] *)
Abbreviation part_0 := (ok_or d1 (partitioned.New 1000 sample_heap)).
Abbreviation part_1 := (ok_or d1 (partitioned.Add part_0.1 (key "a") part_0.2)).
Abbreviation part_2 := (ok_or d1 (partitioned.Reset part_1.1 part_1.2)).

(** ... and [Check "a"], before and after [SetHasher] with the second hash
    object of [sample_heap], and [Reset] after [SetErrorProbability] *)
Abbreviation part_3 := (ok_or d2 (partitioned.Check part_1.1 (key "a") part_1.2)).
Abbreviation part_4 :=
  (ok_or d2 (partitioned.Check (partitioned.SetHasher part_1.1 (Some 1%nat)) (key "a")
               part_1.2)).
Abbreviation part_5 :=
  (ok_or d1 (partitioned.Reset (partitioned.SetErrorProbability part_1.1 0x1p-4)
               part_1.2)).

(** [NewScalable(2)], [Add "a"], then further calls *)
Definition calls_1 : list call :=
  [CallAdd (key "b"); CallAdd (key "c"); CallCheck (key "x"); CallAdd (key "d");
   CallFillRatio].
Definition calls_2 : list call :=
  [CallAdd (key "a"); CallAdd (key "b"); CallAdd (key "c"); CallEstimatedFillRatio;
   CallReset; CallCheck (key "a"); CallAdd (key "d"); CallFillRatio].
Abbreviation scal_0 := (ok_or d3 (NewScalable 2 [] [])).
Abbreviation scal_1 := (ok_or d3 (ScalableFilter.Add scal_0.1 (key "a") scal_0.2)).
Abbreviation scal_2 := (ok_or d3 (Scalable_run calls_1 scal_1.1 scal_1.2)).
Abbreviation scal_3 := (ok_or d3 (Scalable_run calls_2 scal_0.1 scal_0.2)).

(** More sample runs.  [New(1000)], then [Add "b"] and [Check "c"]; then
    [Check "b"]; or [Reset] and [Check "b"] *)
Definition d4 : bool * ScalableFilter.t * Heap := (false, sample_scalable, []).
Abbreviation new_3 := (ok_or d1 (Filter_run ops_bc new_0.1 new_0.2)).
Abbreviation new_4 := (ok_or d2 (Filter.Check new_3.1 (key "b") new_3.2)).
Abbreviation new_5 := (ok_or d1 (Filter.Reset new_3.1 new_3.2)).
Abbreviation new_6 := (ok_or d2 (Filter.Check new_5.1 (key "b") new_5.2)).

(** On the small filter after [Add "a"]: [Check "a"], then [Add "b"] and
    [Check "c"]; or [Add "b"] *)
Abbreviation small_3 := (ok_or d2 (Filter.Check small_1.1 (key "a") small_1.2)).
Abbreviation small_4 := (ok_or d1 (Filter_run ops_bc small_3.1.2 small_3.2)).
Abbreviation small_5 := (ok_or d1 (Filter.Add small_1.1 (key "b") small_1.2)).

(** [partitioned.New(1000)] and [Check "a"]; [partitioned.New(0)] *)
Abbreviation part_6 := (ok_or d2 (partitioned.Check part_0.1 (key "a") part_0.2)).
Abbreviation part_7 := (ok_or d1 (partitioned.New 0 sample_heap)).

(** [NewScalable(2)] and [Check "a"] *)
Abbreviation scal_4 := (ok_or d4 (ScalableFilter.Check scal_0.1 (key "a") scal_0.2)).

(** [NewScalable(2, WithHash(h))], [h] the first hash object of
    [sample_heap], and further calls *)
Definition with_fnv : Option := λ ps, params.mk (Some 0%nat) (params.e ps) (params.p ps).
Abbreviation shared_0 := (ok_or d3 (NewScalable 2 ([] ++ with_fnv :: []) sample_heap)).
Definition calls_3 : list call := CallAdd (key "a") :: calls_1.
Abbreviation shared_1 := (ok_or d3 (Scalable_run calls_3 shared_0.1 shared_0.2)).

(** * Properties *)

(** ** The monad *)

Lemma bind_Ok {A B} (c : M A) (f : A → M B) σ y σ' :
  bind c f σ = Ok (y, σ') ↔ ∃ x σ1, c σ = Ok (x, σ1) ∧ f x σ1 = Ok (y, σ').
Proof.
  unfold bind. split.
  - destruct (c σ) as [[x σ1]|msg]; [eauto | discriminate].
  - intros (x & σ1 & -> & Hf). exact Hf.
Qed.

Lemma lift_Ok {A} (r : Result A) σ y σ' :
  lift r σ = Ok (y, σ') ↔ r = Ok y ∧ σ' = σ.
Proof.
  unfold lift. destruct r; split; intros H.
  - by inversion H.
  - destruct H as [H ->]. by inversion H.
  - discriminate.
  - by destruct H.
Qed.

Lemma ret_Ok {A} (x : A) σ y σ' : ret x σ = Ok (y, σ') ↔ y = x ∧ σ' = σ.
Proof. unfold ret. split; [by inversion 1 | by intros [-> ->]]. Qed.

(** Take every hypothesis [c σ = Ok _], with [c] a chain of binds, apart. *)
Ltac inv_M :=
  repeat match goal with
    | H : bind _ _ _ = Ok _ |- _ =>
        let x := fresh "x" in let σ1 := fresh "σ" in
        let H1 := fresh "H" in
        apply bind_Ok in H as (x & σ1 & H1 & H)
    | H : ret _ _ = Ok _ |- _ => apply ret_Ok in H as [? ?]
    | H : lift _ _ = Ok _ |- _ => apply lift_Ok in H as [H ?]
    | H : (let '(_, _) := ?p in _) _ = Ok _ |- _ => destruct p
    end.

(** ** Slices and big-endian words *)

Lemma slice_Ok {A} (xs : list A) lo hi ys :
  slice xs lo hi = Ok ys ↔ (lo ≤ hi ≤ length xs)%nat ∧ ys = take (hi - lo) (drop lo xs).
Proof.
  unfold slice. case_bool_decide; split; intros H'.
  - by inversion H'.
  - by destruct H' as [_ ->].
  - discriminate.
  - by destruct H'.
Qed.

Lemma byte_val_lt x : byte_val x < 256.
Proof. unfold byte_val. pose proof (Byte.to_N_bounded x). lia. Qed.

Lemma lor_shiftl_add x y n : x < 2 ^ n → N.lor x (N.shiftl y n) = x + y * 2 ^ n.
Proof.
  intros Hx. rewrite N.shiftl_mul_pow2.
  rewrite <- N.lxor_lor, <- N.add_nocarry_lxor; trivial;
    apply N.bits_inj; intros i; rewrite N.land_spec, N.bits_0;
    destruct (N.lt_ge_cases i n) as [Hi|Hi].
  all: try (rewrite N.mul_pow2_bits_low by trivial; apply andb_false_r).
  all: rewrite <- (N.mod_small x (2 ^ n)) by trivial;
       rewrite N.mod_pow2_bits_high by trivial; reflexivity.
Qed.

Lemma BigEndian_Uint32_Ok b0 b1 b2 b3 rest :
  BigEndian_Uint32 (b0 :: b1 :: b2 :: b3 :: rest) = Ok (be_value [b0; b1; b2; b3]).
Proof.
  unfold BigEndian_Uint32, be_value. simpl. f_equal.
  pose proof (byte_val_lt b0). pose proof (byte_val_lt b1).
  pose proof (byte_val_lt b2). pose proof (byte_val_lt b3).
  rewrite (lor_shiftl_add _ _ 8) by (simpl; lia).
  rewrite (lor_shiftl_add _ _ 16) by (simpl; lia).
  rewrite (lor_shiftl_add _ _ 24) by (simpl; lia).
  simpl. lia.
Qed.

Lemma be_value_4_lt (bytes : list byte) :
  length bytes = 4%nat → be_value bytes < 2 ^ 32.
Proof.
  destruct bytes as [|b0 [|b1 [|b2 [|b3 [|? ?]]]]]; try discriminate. intros _.
  unfold be_value. simpl.
  pose proof (byte_val_lt b0). pose proof (byte_val_lt b1).
  pose proof (byte_val_lt b2). pose proof (byte_val_lt b3). lia.
Qed.

Lemma BigEndian_Uint32_take4 (D : list byte) :
  (4 ≤ length D)%nat → BigEndian_Uint32 (take 4 D) = Ok (be_value (take 4 D)).
Proof.
  destruct D as [|b0 [|b1 [|b2 [|b3 rest]]]]; simpl; try lia. intros _.
  rewrite take_0. apply (BigEndian_Uint32_Ok b0 b1 b2 b3 []).
Qed.

(** ** The bit vector *)

Lemma Test_Set_same x i : bitset.Test (bitset.Set_ x i) i = true.
Proof.
  unfold bitset.Test, bitset.Set_. simpl.
  destruct (N.leb_spec (bitset.length x) i) as [Hle|Hlt].
  - destruct (N.leb_spec (i + 1) i); [lia |]. apply N.setbit_eq.
  - destruct (N.leb_spec (bitset.length x) i); [lia |]. apply N.setbit_eq.
Qed.

Lemma Test_Set_mono x i j :
  bitset.Test x j = true → bitset.Test (bitset.Set_ x i) j = true.
Proof.
  unfold bitset.Test, bitset.Set_. simpl.
  destruct (N.leb_spec (bitset.length x) j) as [Hle|Hlt]; [discriminate |].
  intros Hj.
  assert (N.testbit (N.setbit (bitset.set x) i) j = true) as ->.
  { rewrite N.setbit_eqb, Hj. apply orb_true_r. }
  destruct (N.leb_spec (bitset.length x) i);
    match goal with |- (if ?c then _ else _) = _ => destruct (N.leb_spec0 _ _ : reflect _ c) end;
    trivial; lia.
Qed.

Lemma Test_New n i : bitset.Test (bitset.New n) i = false.
Proof. unfold bitset.Test, bitset.New. simpl. destruct (_ <=? _); trivial. Qed.

Lemma Test_ClearAll x i : bitset.Test (bitset.ClearAll x) i = false.
Proof. unfold bitset.Test, bitset.ClearAll. simpl. destruct (_ <=? _); trivial. Qed.

(** ** Hash objects *)

Lemma hash_digest_Ok l ho σ item :
  σ !! l = Some ho →
  (do! hash_Reset (Some l) in do! hash_Write (Some l) item in hash_Sum (Some l) []) σ
  = Ok (hash.digest ho item, <[l := hash.mk (hash.digest ho) item]> σ).
Proof.
  intros Hl. pose proof (lookup_lt_Some _ _ _ Hl) as Hlt.
  unfold hash_Reset, hash_Write, hash_Sum, bind, deref, store, ret. rewrite Hl.
  rewrite list_lookup_insert_eq by trivial. simpl.
  rewrite list_insert_insert_eq.
  rewrite list_lookup_insert_eq by trivial. reflexivity.
Qed.

(** ** The loops of [bits], [Add] and [Check] *)

Lemma bits_loop_Ok a b s j cnt (bs : list N) :
  s ≠ 0 → (j + cnt ≤ length bs)%nat →
  Filter.bits_loop a b s (N.of_nat j) cnt bs
  = Ok (take j bs ++ map (λ i, bit_index a b s (N.of_nat i)) (seq j cnt)
          ++ drop (j + cnt) bs).
Proof.
  intros Hs. revert j bs. induction cnt as [|cnt IH]; intros j bs Hlen; simpl.
  - rewrite Nat.add_0_r, take_drop. reflexivity.
  - destruct (N.eqb_spec s 0) as [|_]; [contradiction |].
    replace (N.of_nat j + 1) with (N.of_nat (S j)) by lia.
    rewrite IH by (rewrite length_insert; lia).
    rewrite Nat2N.id. f_equal.
    rewrite drop_insert_lt by lia.
    replace (S j + cnt)%nat with (j + S cnt)%nat by lia.
    rewrite (take_S_r _ j (bit_index a b s (N.of_nat j))).
    + rewrite take_insert_ge by lia. rewrite <- app_assoc. reflexivity.
    + apply list_lookup_insert_eq. lia.
Qed.

Lemma bits_loop_zero a b i cnt (bs : list N) :
  cnt ≠ 0%nat → Filter.bits_loop a b 0 i cnt bs = Panic divide_by_zero.
Proof. destruct cnt; [contradiction | reflexivity]. Qed.

Lemma deref_Ok r σ l ho σ' :
  deref r σ = Ok ((l, ho), σ') ↔ r = Some l ∧ σ !! l = Some ho ∧ σ' = σ.
Proof.
  unfold deref. destruct r as [l0|]; [destruct (σ !! l0) as [ho0|] eqn:E |]; split; intros H.
  all: try discriminate.
  all: try (inversion H; subst; by rewrite ?E).
  all: destruct H as (H & H' & ?); try discriminate.
  - inversion H; subst. rewrite E in H'. inversion H'. reflexivity.
  - inversion H; subst. rewrite E in H'. discriminate.
Qed.

Lemma hash_Reset_Ok r σ u σ' :
  hash_Reset r σ = Ok (u, σ') ↔
  ∃ l ho, r = Some l ∧ σ !! l = Some ho ∧ σ' = <[l := hash.mk (hash.digest ho) []]> σ.
Proof.
  unfold hash_Reset. rewrite bind_Ok. split.
  - intros ([l ho] & σ1 & H1 & H2). apply deref_Ok in H1 as (-> & Hl & ->).
    inversion H2. eauto.
  - intros (l & ho & -> & Hl & ->). exists (l, ho), σ. split.
    + by apply deref_Ok.
    + by destruct u.
Qed.

Lemma hash_Write_Ok r p σ u σ' :
  hash_Write r p σ = Ok (u, σ') ↔
  ∃ l ho, r = Some l ∧ σ !! l = Some ho
          ∧ σ' = <[l := hash.mk (hash.digest ho) (hash.written ho ++ p)]> σ.
Proof.
  unfold hash_Write. rewrite bind_Ok. split.
  - intros ([l ho] & σ1 & H1 & H2). apply deref_Ok in H1 as (-> & Hl & ->).
    inversion H2. eauto.
  - intros (l & ho & -> & Hl & ->). exists (l, ho), σ. split.
    + by apply deref_Ok.
    + by destruct u.
Qed.

Lemma hash_Sum_Ok r b σ d σ' :
  hash_Sum r b σ = Ok (d, σ') ↔
  ∃ l ho, r = Some l ∧ σ !! l = Some ho
          ∧ d = b ++ hash.digest ho (hash.written ho) ∧ σ' = σ.
Proof.
  unfold hash_Sum. rewrite bind_Ok. split.
  - intros ([l ho] & σ1 & H1 & H2). apply deref_Ok in H1 as (-> & Hl & ->).
    apply ret_Ok in H2 as [-> ->]. by exists l, ho.
  - intros (l & ho & -> & Hl & -> & ->). exists (l, ho), σ. split.
    + by apply deref_Ok.
    + reflexivity.
Qed.

Lemma bits_loop_inv a b s i cnt (bs bs' : list N) :
  Filter.bits_loop a b s i cnt bs = Ok bs' → cnt = 0%nat ∨ s ≠ 0.
Proof.
  destruct cnt; [by left |]. simpl. destruct (N.eqb_spec s 0); [discriminate | by right].
Qed.

Lemma set_bits_nil i (b : list bitset.BitSet) : set_bits i [] b = b.
Proof.
  apply list_eq. intros j. unfold set_bits. rewrite list_lookup_imap.
  destruct (b !! j); simpl; trivial. case_decide; trivial.
Qed.

Lemma set_bits_cons i v vs x (b : list bitset.BitSet) :
  b !! i = Some x →
  set_bits (S i) vs (<[i := bitset.Set_ x v]> b) = set_bits i (v :: vs) b.
Proof.
  intros Hi. apply list_eq. intros j. unfold set_bits. rewrite !list_lookup_imap.
  destruct (decide (i = j)) as [<-|Hne].
  - rewrite list_lookup_insert_eq by (by eapply lookup_lt_Some).
    rewrite Hi. simpl. rewrite decide_False by lia. rewrite decide_True by lia.
    by rewrite Nat.sub_diag.
  - rewrite list_lookup_insert_ne by trivial.
    destruct (b !! j); simpl; trivial. f_equal.
    destruct (decide (i ≤ j)%nat).
    + rewrite decide_True by lia.
      replace (j - i)%nat with (S (j - S i)) by lia. reflexivity.
    + by rewrite decide_False by lia.
Qed.

Lemma Add_loop_Ok i vs (b b' : list bitset.BitSet) :
  Filter.Add_loop i vs b = Ok b' ↔
  (vs = [] ∨ i + length vs ≤ length b)%nat ∧ b' = set_bits i vs b.
Proof.
  revert i b. induction vs as [|v vs IH]; intros i b; simpl.
  - rewrite set_bits_nil. split; [inversion 1; auto | by intros [_ ->]].
  - destruct (b !! i) as [x|] eqn:Hi.
    + rewrite IH, length_insert, (set_bits_cons _ _ _ _ _ Hi).
      apply lookup_lt_Some in Hi.
      split; intros [Hlen ->]; split; trivial; right; simpl.
      * destruct Hlen as [->|Hlen]; simpl; lia.
      * destruct Hlen as [Hlen|Hlen]; [discriminate | simpl in Hlen; lia].
    + apply lookup_ge_None in Hi. split; [discriminate |].
      intros [[?|?] _]; [discriminate | lia].
Qed.

Lemma length_set_bits i vs (b : list bitset.BitSet) : length (set_bits i vs b) = length b.
Proof. apply length_imap. Qed.

Lemma set_bits_lookup i vs (b : list bitset.BitSet) j x :
  b !! j = Some x →
  set_bits i vs b !! j
  = Some (if decide (i ≤ j)%nat
          then match vs !! (j - i)%nat with Some v => bitset.Set_ x v | None => x end
          else x).
Proof. intros Hj. unfold set_bits. by rewrite list_lookup_imap, Hj. Qed.

Lemma Check_loop_true i vs (b : list bitset.BitSet) :
  Filter.Check_loop i vs b = Ok true ↔ all_set i vs b.
Proof.
  revert i. induction vs as [|v vs IH]; intros i; simpl.
  - split; [| trivial]. intros _ j v Hj. by rewrite lookup_nil in Hj.
  - destruct (b !! i) as [x|] eqn:Hi.
    + destruct (bitset.Test x v) eqn:Ht.
      * rewrite IH. split; intros H j w Hj.
        -- destruct j as [|j]; simpl in Hj.
           ++ inversion Hj; subst. rewrite Nat.add_0_r. eauto.
           ++ replace (i + S j)%nat with (S i + j)%nat by lia. eauto.
        -- replace (S i + j)%nat with (i + S j)%nat by lia. apply H. exact Hj.
      * split; [discriminate |]. intros H.
        destruct (H 0%nat v eq_refl) as (x' & Hx' & Ht').
        rewrite Nat.add_0_r, Hi in Hx'. congruence.
    + split; [discriminate |]. intros H.
      destruct (H 0%nat v eq_refl) as (x' & Hx' & _).
      rewrite Nat.add_0_r, Hi in Hx'. discriminate.
Qed.

Lemma Check_loop_total i vs (b : list bitset.BitSet) :
  (i + length vs ≤ length b)%nat → ∃ r, Filter.Check_loop i vs b = Ok r.
Proof.
  revert i. induction vs as [|v vs IH]; intros i Hlen; simpl in *; [eauto |].
  destruct (lookup_lt_is_Some_2 b i) as [x ->]; [lia |].
  destruct (bitset.Test x v); [apply IH; lia | eauto].
Qed.

Lemma length_indices D k s : length (indices D k s) = N.to_nat k.
Proof. unfold indices. by rewrite length_map, length_seq. Qed.

Lemma indices_lookup D k s i :
  (i < N.to_nat k)%nat →
  indices D k s !! i = Some (bit_index (digest_a D) (digest_b D) s (N.of_nat i)).
Proof.
  intros Hi. unfold indices. rewrite list_lookup_fmap, lookup_seq_lt by trivial.
  reflexivity.
Qed.

Lemma take_bits_state f D :
  take (N.to_nat (Filter.k f)) (Filter.bs (bits_state f D))
  = indices D (Filter.k f) (Filter.s f).
Proof.
  unfold bits_state. simpl. rewrite take_app_length'; [trivial | by rewrite length_indices].
Qed.

Lemma bits_state_idem f D : bits_state (bits_state f D) D = bits_state f D.
Proof.
  unfold bits_state. destruct f; simpl. unfold Filter.with_bs; simpl. f_equal.
  f_equal. rewrite drop_app_length'; [trivial | by rewrite length_indices].
Qed.

(** ** [bits], [Add] and [Check] *)

Lemma bits_Ok f item σ f' σ' :
  Filter.bits f item σ = Ok (f', σ') ↔
  ∃ l ho, Filter.h f = Some l ∧ σ !! l = Some ho
          ∧ bits_ready f (hash.digest ho item)
          ∧ f' = bits_state f (hash.digest ho item)
          ∧ σ' = <[l := hashed ho item]> σ.
Proof.
  unfold Filter.bits. split.
  - intros H. inv_M. subst.
    match goal with H : hash_Reset _ _ = Ok _ |- _ =>
      apply hash_Reset_Ok in H as (l & ho & Hh & Hl & ->) end.
    pose proof (lookup_lt_Some _ _ _ Hl) as Hlt.
    rewrite Hh in *.
    match goal with H : hash_Write _ _ _ = Ok _ |- _ =>
      apply hash_Write_Ok in H as (? & ? & [= <-] & Hl1 & ->) end.
    rewrite list_lookup_insert_eq in Hl1 by trivial. injection Hl1 as <-.
    rewrite list_insert_insert_eq in *. simpl in *.
    match goal with H : hash_Sum _ _ _ = Ok _ |- _ =>
      apply hash_Sum_Ok in H as (? & ? & [= <-] & Hl2 & -> & ->) end.
    rewrite list_lookup_insert_eq in Hl2 by trivial. injection Hl2 as <-.
    simpl in *.
    repeat match goal with H : slice _ _ _ = Ok _ |- _ =>
      apply slice_Ok in H as [? ->] end.
    simpl in *.
    rewrite drop_0 in *.
    repeat match goal with H : BigEndian_Uint32 _ = Ok ?x |- _ =>
      rewrite BigEndian_Uint32_take4 in H by (rewrite ?length_drop; lia);
      injection H as ?; subst x end.
    match goal with H : Filter.bits_loop _ _ _ _ _ _ = Ok _ |- _ => rename H into Hloop end.
    exists l, ho. repeat split; trivial; try lia.
    + apply bits_loop_inv in Hloop as [Hc|Hs]; [left; lia | by right].
    + destruct (N.eq_dec (Filter.s f) 0) as [Hs|Hs].
      * rewrite Hs in Hloop. destruct (N.to_nat (Filter.k f)) eqn:Ek.
        -- simpl in Hloop. injection Hloop as <-. unfold bits_state, indices.
           rewrite Ek. simpl. by rewrite drop_0.
        -- simpl in Hloop. discriminate.
      * rewrite (bits_loop_Ok _ _ _ 0) in Hloop by (trivial || lia).
        injection Hloop as <-. reflexivity.
  - intros (l & ho & Hh & Hl & (Hlen & Hk & Hs) & -> & ->).
    pose proof (lookup_lt_Some _ _ _ Hl) as Hlt.
    rewrite Hh. unfold bind at 1 2 3.
    unfold hash_Reset, hash_Write, hash_Sum, bind at 1 2 3, deref, store, ret.
    rewrite Hl. rewrite list_lookup_insert_eq by trivial. simpl.
    rewrite list_insert_insert_eq, list_lookup_insert_eq by trivial. simpl.
    unfold bind, lift, slice.
    rewrite !bool_decide_eq_true_2 by (simpl; lia).
    rewrite BigEndian_Uint32_take4 by (rewrite length_drop; lia).
    rewrite BigEndian_Uint32_take4 by (rewrite length_drop; simpl; lia).
    destruct (N.eq_dec (Filter.s f) 0) as [Hs0|Hs0].
    + destruct Hs as [Hk0|?]; [| contradiction].
      unfold bits_state, indices. rewrite Hk0. simpl. by rewrite drop_0.
    + rewrite (bits_loop_Ok _ _ _ 0) by (trivial || lia). reflexivity.
Qed.

Lemma slice_bits_state f D :
  slice (Filter.bs (bits_state f D)) 0 (N.to_nat (Filter.k (bits_state f D)))
  = Ok (indices D (Filter.k f) (Filter.s f)).
Proof.
  change (Filter.k (bits_state f D)) with (Filter.k f).
  unfold slice. rewrite bool_decide_eq_true_2.
  - rewrite Nat.sub_0_r, drop_0. f_equal. apply take_bits_state.
  - unfold bits_state. simpl. rewrite length_app, length_indices. lia.
Qed.

Lemma Add_Ok f item σ f' σ' :
  Filter.Add f item σ = Ok (f', σ') ↔
  ∃ l ho, Filter.h f = Some l ∧ σ !! l = Some ho
          ∧ bits_ready f (hash.digest ho item)
          ∧ (N.to_nat (Filter.k f) ≤ length (Filter.b f))%nat
          ∧ f' = Add_state f (hash.digest ho item)
          ∧ σ' = <[l := hashed ho item]> σ.
Proof.
  unfold Filter.Add. rewrite bind_Ok. split.
  - intros (f1 & σ1 & Hbits & H). apply bits_Ok in Hbits as (l & ho & Hh & Hl & Hr & -> & ->).
    inv_M. subst. rewrite slice_bits_state in *.
    match goal with H : Ok _ = Ok _ |- _ => injection H as <- end.
    match goal with H : Filter.Add_loop _ _ _ = Ok _ |- _ =>
      apply Add_loop_Ok in H as [Hlen ->] end.
    exists l, ho. split_and!; trivial.
    destruct Hlen as [Hnil|Hlen].
    + apply (f_equal length) in Hnil. rewrite length_indices in Hnil. simpl in Hnil. lia.
    + rewrite length_indices in Hlen. simpl in Hlen. lia.
  - intros (l & ho & Hh & Hl & Hr & Hb & -> & ->).
    exists (bits_state f (hash.digest ho item)), (<[l := hashed ho item]> σ). split.
    + apply bits_Ok. eauto 10.
    + unfold bind, lift. rewrite slice_bits_state.
      assert (Filter.Add_loop 0 (indices (hash.digest ho item) (Filter.k f) (Filter.s f))
                (Filter.b (bits_state f (hash.digest ho item)))
              = Ok (set_bits 0 (indices (hash.digest ho item) (Filter.k f) (Filter.s f))
                      (Filter.b f))) as ->; [| reflexivity].
      apply Add_loop_Ok. split; [| reflexivity]. right. rewrite length_indices.
      simpl. lia.
Qed.

Lemma Check_Ok f item σ r f' σ' :
  Filter.Check f item σ = Ok ((r, f'), σ') ↔
  ∃ l ho, Filter.h f = Some l ∧ σ !! l = Some ho
          ∧ bits_ready f (hash.digest ho item)
          ∧ Filter.Check_loop 0 (indices (hash.digest ho item) (Filter.k f) (Filter.s f))
              (Filter.b f) = Ok r
          ∧ f' = bits_state f (hash.digest ho item)
          ∧ σ' = <[l := hashed ho item]> σ.
Proof.
  unfold Filter.Check. rewrite bind_Ok. split.
  - intros (f1 & σ1 & Hbits & H). apply bits_Ok in Hbits as (l & ho & Hh & Hl & Hr & -> & ->).
    inv_M. subst. rewrite slice_bits_state in *.
    match goal with H : Ok _ = Ok _ |- _ => injection H as <- end.
    match goal with H : (_, _) = (_, _) |- _ => injection H as -> -> end.
    exists l, ho. split_and!; trivial.
  - intros (l & ho & Hh & Hl & Hr & Hloop & -> & ->).
    exists (bits_state f (hash.digest ho item)), (<[l := hashed ho item]> σ). split.
    + apply bits_Ok. eauto 10.
    + unfold bind, lift. rewrite slice_bits_state.
      unfold bits_state at 1. simpl. rewrite Hloop. reflexivity.
Qed.

(** ** No false negatives in one filter *)

Lemma hash_at_Some σ r ho :
  hash_at σ r = Some ho ↔ ∃ l, r = Some l ∧ σ !! l = Some ho.
Proof.
  unfold hash_at. destruct r as [l|]; split.
  - eauto.
  - by intros (? & [= <-] & ?).
  - discriminate.
  - by intros (? & ? & _).
Qed.

Lemma hashes_with_step σ f d l ho item f' :
  Filter.h f = Some l → σ !! l = Some ho → Filter.h f' = Filter.h f →
  hashes_with σ f d → hashes_with (<[l := hashed ho item]> σ) f' d.
Proof.
  intros Hh Hl Hh' (ho' & Hat & <-). unfold hashes_with. rewrite Hh', Hh in *.
  simpl in *. rewrite Hl in Hat. injection Hat as <-.
  exists (hashed ho item). split; [| reflexivity].
  apply list_lookup_insert_eq. by eapply lookup_lt_Some.
Qed.

Lemma bits_ready_bits_state f D D' : bits_ready f D → bits_ready f D' → bits_ready (bits_state f D) D'.
Proof.
  intros (_ & Hk & _) (HD & _ & Hs). unfold bits_ready, bits_state. simpl.
  split_and!; trivial. rewrite length_app, length_indices, length_drop. lia.
Qed.

Lemma Add_recorded f item σ f1 σ1 :
  Filter.Add f item σ = Ok (f1, σ1) →
  ∃ d, hashes_with σ f d ∧ hashes_with σ1 f1 d ∧ recorded f1 (d item).
Proof.
  intros (l & ho & Hh & Hl & Hr & Hb & -> & ->)%Add_Ok.
  assert (hashes_with σ f (hash.digest ho)) as Hw.
  { exists ho. split; [| reflexivity]. apply hash_at_Some. eauto. }
  exists (hash.digest ho). split_and!; trivial.
  - by apply (hashes_with_step σ f).
  - split.
    + by apply (bits_ready_bits_state f _ _ Hr Hr).
    + intros j v Hj. simpl in *.
      pose proof (lookup_lt_Some _ _ _ Hj) as Hlt. rewrite length_indices in Hlt.
      destruct (lookup_lt_is_Some_2 (Filter.b f) j) as [x Hx]; [lia |].
      exists (bitset.Set_ x v). split; [| apply Test_Set_same].
      rewrite (set_bits_lookup _ _ _ _ _ Hx), decide_True by lia.
      by rewrite Nat.sub_0_r, Hj.
Qed.

Lemma all_set_set_bits vs ws (b : list bitset.BitSet) :
  all_set 0 vs b → all_set 0 vs (set_bits 0 ws b).
Proof.
  intros H j v Hj. destruct (H j v Hj) as (x & Hx & Ht). simpl in *.
  rewrite (set_bits_lookup _ _ _ _ _ Hx), decide_True by lia.
  destruct (ws !! _); eauto using Test_Set_mono.
Qed.

Lemma Add_keeps_recorded f D d item σ f1 σ1 :
  recorded f D → hashes_with σ f d → Filter.Add f item σ = Ok (f1, σ1) →
  recorded f1 D ∧ hashes_with σ1 f1 d.
Proof.
  intros [Hr Hset] Hw (l & ho & Hh & Hl & Hr' & Hb & -> & ->)%Add_Ok. split.
  - split.
    + by apply (bits_ready_bits_state f _ _ Hr' Hr).
    + by apply all_set_set_bits.
  - by apply (hashes_with_step σ f).
Qed.

Lemma Check_keeps_recorded f D d item σ r f1 σ1 :
  recorded f D → hashes_with σ f d → Filter.Check f item σ = Ok ((r, f1), σ1) →
  recorded f1 D ∧ hashes_with σ1 f1 d.
Proof.
  intros [Hr Hset] Hw (l & ho & Hh & Hl & Hr' & Hloop & -> & ->)%Check_Ok. split.
  - split; [by apply (bits_ready_bits_state f _ _ Hr' Hr) | exact Hset].
  - by apply (hashes_with_step σ f).
Qed.

Lemma recorded_Check f d item σ :
  recorded f (d item) → hashes_with σ f d →
  ∃ f' σ', Filter.Check f item σ = Ok ((true, f'), σ').
Proof.
  intros [Hr Hset] (ho & (l & Hh & Hl)%hash_at_Some & <-).
  eexists _, _. apply Check_Ok. exists l, ho. split_and!; trivial.
  by apply Check_loop_true.
Qed.

Lemma Filter_run_keeps_recorded ops f D d σ f' σ' :
  recorded f D → hashes_with σ f d → Filter_run ops f σ = Ok (f', σ') →
  recorded f' D ∧ hashes_with σ' f' d.
Proof.
  revert f σ. induction ops as [|[item|item] ops IH]; intros f σ Hr Hw Hrun; simpl in Hrun.
  - apply ret_Ok in Hrun as [-> ->]. by split.
  - apply bind_Ok in Hrun as (f1 & σ1 & HAdd & Hrun).
    destruct (Add_keeps_recorded _ _ _ _ _ _ _ Hr Hw HAdd). eauto.
  - apply bind_Ok in Hrun as ([r f1] & σ1 & HCheck & Hrun).
    destruct (Check_keeps_recorded _ _ _ _ _ _ _ _ Hr Hw HCheck). eauto.
Qed.


(** ** Filters and heaps as they evolve *)

Lemma heap_le_refl σ : heap_le σ σ.
Proof. intros l ho H. eauto. Qed.

Lemma heap_le_trans σ1 σ2 σ3 : heap_le σ1 σ2 → heap_le σ2 σ3 → heap_le σ1 σ3.
Proof.
  intros H12 H23 l ho H. destruct (H12 _ _ H) as (ho2 & H2 & E2).
  destruct (H23 _ _ H2) as (ho3 & H3 & E3). exists ho3. split; congruence.
Qed.

Lemma heap_le_hashed σ l ho item :
  σ !! l = Some ho → heap_le σ (<[l := hashed ho item]> σ).
Proof.
  intros Hl l' ho' Hl'. destruct (decide (l = l')) as [<-|Hne].
  - exists (hashed ho item). rewrite list_lookup_insert_eq by (by eapply lookup_lt_Some).
    split; [reflexivity | simpl; congruence].
  - exists ho'. by rewrite list_lookup_insert_ne.
Qed.

Lemma heap_le_alloc σ ho : heap_le σ (σ ++ [ho]).
Proof. intros l ho' Hl. exists ho'. split; [| reflexivity]. by apply lookup_app_l_Some. Qed.

Lemma digests_ok_hashed σ l ho item :
  σ !! l = Some ho → digests_ok σ → digests_ok (<[l := hashed ho item]> σ).
Proof.
  intros Hl Hok l' ho' Hl' x. destruct (decide (l = l')) as [<-|Hne].
  - rewrite list_lookup_insert_eq in Hl' by (by eapply lookup_lt_Some).
    injection Hl' as <-. simpl. by eapply Hok.
  - rewrite list_lookup_insert_ne in Hl' by trivial. by eapply Hok.
Qed.

Lemma digests_ok_alloc σ ho :
  (∀ x, (8 ≤ length (hash.digest ho x))%nat) → digests_ok σ → digests_ok (σ ++ [ho]).
Proof.
  intros Hho Hok l ho' Hl x. apply lookup_app_Some in Hl as [Hl|[_ Hl]].
  - by eapply Hok.
  - apply list_lookup_singleton_Some in Hl as [_ <-]. apply Hho.
Qed.

Lemma filter_le_refl f : filter_le f f.
Proof. unfold filter_le. split_and!; eauto. Qed.

Lemma filter_le_trans f1 f2 f3 : filter_le f1 f2 → filter_le f2 f3 → filter_le f1 f3.
Proof.
  intros (Hh & Hk & Hs & Hbs & Hb) (Hh' & Hk' & Hs' & Hbs' & Hb').
  unfold filter_le. split_and!; try congruence; try lia.
  intros i x Hx. destruct (Hb _ _ Hx) as (x2 & Hx2 & Ht2).
  destruct (Hb' _ _ Hx2) as (x3 & Hx3 & Ht3). eauto.
Qed.

Lemma filter_le_bits_state f D : bits_ready f D → filter_le f (bits_state f D).
Proof.
  intros (_ & Hk & _). unfold filter_le, bits_state. simpl. split_and!; eauto.
  rewrite length_app, length_indices, length_drop. lia.
Qed.

Lemma filter_le_Add_state f D : bits_ready f D → filter_le f (Add_state f D).
Proof.
  intros (_ & Hk & _). unfold filter_le, Add_state, bits_state. simpl. split_and!; trivial.
  - rewrite length_app, length_indices, length_drop. lia.
  - intros i x Hx. rewrite (set_bits_lookup _ _ _ _ _ Hx). eexists. split; [reflexivity |].
    intros v Hv. case_decide; trivial.
    destruct (indices _ _ _ !! _); eauto using Test_Set_mono.
Qed.

Lemma Add_le f item σ f' σ' :
  Filter.Add f item σ = Ok (f', σ') →
  filter_le f f' ∧ heap_le σ σ' ∧ (digests_ok σ → digests_ok σ') ∧ usable σ' f'.
Proof.
  intros (l & ho & Hh & Hl & Hr & Hb & -> & ->)%Add_Ok. split_and!.
  - by apply filter_le_Add_state.
  - by apply heap_le_hashed.
  - by apply digests_ok_hashed.
  - destruct Hr as (_ & Hk & Hs). unfold usable, Add_state, bits_state. simpl.
    rewrite Hh. simpl. rewrite list_lookup_insert_eq by (by eapply lookup_lt_Some).
    rewrite length_set_bits, length_app, length_indices, length_drop.
    split_and!; eauto; lia.
Qed.

Lemma Check_le f item σ r f' σ' :
  Filter.Check f item σ = Ok ((r, f'), σ') →
  filter_le f f' ∧ heap_le σ σ' ∧ (digests_ok σ → digests_ok σ').
Proof.
  intros (l & ho & Hh & Hl & Hr & Hloop & -> & ->)%Check_Ok. split_and!.
  - by apply filter_le_bits_state.
  - by apply heap_le_hashed.
  - by apply digests_ok_hashed.
Qed.

Lemma usable_le σ σ' f f' : usable σ f → filter_le f f' → heap_le σ σ' → usable σ' f'.
Proof.
  intros ([ho Hat] & Hbs & Hb & Hs) (Hh & Hk & Hs' & Hbs' & Hb') Hle.
  unfold usable. rewrite Hh, Hk, Hs'. split_and!; trivial; try lia.
  - apply hash_at_Some in Hat as (l & Hl & Hat). destruct (Hle _ _ Hat) as (ho' & Hat' & _).
    exists ho'. apply hash_at_Some. eauto.
  - destruct (decide (N.to_nat (Filter.k f) = 0%nat)) as [->|Hne]; [lia |].
    destruct (lookup_lt_is_Some_2 (Filter.b f) (N.to_nat (Filter.k f) - 1)) as [x Hx]; [lia |].
    assert (∀ i, (i < length (Filter.b f))%nat → (i < length (Filter.b f'))%nat) as Hlen.
    { intros i Hi. destruct (lookup_lt_is_Some_2 (Filter.b f) i Hi) as [y Hy].
      destruct (Hb' _ _ Hy) as (y' & Hy' & _). by eapply lookup_lt_Some. }
    specialize (Hlen (N.to_nat (Filter.k f) - 1)%nat). lia.
Qed.

Lemma hashes_with_le σ σ' f f' d :
  hashes_with σ f d → filter_le f f' → heap_le σ σ' → hashes_with σ' f' d.
Proof.
  intros (ho & (l & Hl & Hat)%hash_at_Some & <-) (Hh & _) Hle.
  destruct (Hle _ _ Hat) as (ho' & Hat' & E). exists ho'. split; [| exact E].
  rewrite Hh. apply hash_at_Some. eauto.
Qed.

Lemma recorded_le f f' D : recorded f D → filter_le f f' → recorded f' D.
Proof.
  intros [(HD & Hk & Hs) Hset] (Hh & Hk' & Hs' & Hbs & Hb). split.
  - unfold bits_ready. rewrite Hk', Hs'. split_and!; trivial. lia.
  - rewrite Hk', Hs'. intros j v Hj. destruct (Hset j v Hj) as (x & Hx & Ht).
    destruct (Hb _ _ Hx) as (x' & Hx' & Ht'). eauto.
Qed.

Lemma usable_Check σ f item :
  digests_ok σ → usable σ f → ∃ r f' σ', Filter.Check f item σ = Ok ((r, f'), σ').
Proof.
  intros Hok ([ho (l & Hh & Hl)%hash_at_Some] & Hbs & Hb & Hs).
  destruct (Check_loop_total 0 (indices (hash.digest ho item) (Filter.k f) (Filter.s f))
              (Filter.b f)) as [r Hr].
  { rewrite length_indices. simpl. lia. }
  exists r. eexists _, _. apply Check_Ok. exists l, ho. split_and!; trivial.
  split_and!; trivial. by eapply Hok.
Qed.

(** ** Construction *)

Section Construction.
Context `{!GoLib}.

Lemma withDefault_eq opt σ :
  ∃ o, withDefault opt σ
       = Ok ([o; WithErrorRate 0; WithFillRatio 0] ++ opt, σ ++ [cityhash_obj])
       ∧ ∀ ps, o ps = params.mk (Some (length σ)) (params.e ps) (params.p ps).
Proof. eexists. split; [reflexivity |]. reflexivity. Qed.

Lemma New_zero opt σ : New 0 opt σ = Panic "n == 0".
Proof. reflexivity. Qed.

Lemma New_eq n opt σ :
  n ≠ 0 → New n opt σ = Ok (New_state n opt (length σ), σ ++ [cityhash_obj]).
Proof.
  intros Hn. unfold New. destruct (N.eqb_spec n 0) as [|_]; [contradiction |].
  reflexivity.
Qed.

Lemma apply_options_app xs ys ps :
  apply_options (xs ++ ys) ps = apply_options ys (apply_options xs ps).
Proof. apply foldl_app. Qed.

Lemma New_state_shape n opt l :
  Filter.n (New_state n opt l) = n
  ∧ Filter.c (New_state n opt l) = 0
  ∧ length (Filter.b (New_state n opt l)) = N.to_nat (Filter.k (New_state n opt l))
  ∧ length (Filter.bs (New_state n opt l)) = N.to_nat (Filter.k (New_state n opt l))
  ∧ Filter.k (New_state n opt l) = k (Filter.e (New_state n opt l))
  ∧ Filter.m (New_state n opt l) = m n (Filter.p (New_state n opt l)) (Filter.e (New_state n opt l))
  ∧ Filter.s (New_state n opt l) = s (Filter.m (New_state n opt l)) (Filter.k (New_state n opt l)).
Proof.
  unfold New_state, makePartitions. simpl. rewrite !length_replicate. by split_and!.
Qed.


Lemma addBloomFilter_eq sbf σ :
  ScalableFilter.n sbf ≠ 0 →
  ScalableFilter.addBloomFilter sbf σ
  = Ok (ScalableFilter.with_bfs sbf
          (ScalableFilter.bfs sbf
           ++ [New_state (ScalableFilter.n sbf)
                 (ScalableFilter.opt sbf ++ [WithErrorRate (tightened sbf)]) (length σ)]),
        σ ++ [cityhash_obj]).
Proof.
  intros Hn. unfold ScalableFilter.addBloomFilter, bind.
  fold (tightened sbf). by rewrite New_eq.
Qed.

Lemma index_int_last {A} (xs : list A) x :
  index_int (xs ++ [x]) (Z.of_nat (length (xs ++ [x])) - 1) = Ok x.
Proof.
  unfold index_int, index. rewrite length_app. simpl.
  destruct (Z.ltb_spec (Z.of_nat (length xs + 1) - 1) 0); [lia |].
  replace (Z.to_nat (Z.of_nat (length xs + 1) - 1)) with (length xs) by lia.
  by rewrite list_lookup_middle.
Qed.

Lemma index_int_Ok_last {A} (xs : list A) x :
  index_int xs (Z.of_nat (length xs) - 1) = Ok x → ∃ ys, xs = ys ++ [x].
Proof.
  destruct xs as [|y xs _] using rev_ind.
  - discriminate.
  - rewrite index_int_last. intros [= ->]. eauto.
Qed.

Lemma insert_last {A} (xs : list A) x y : <[length xs := y]> (xs ++ [x]) = xs ++ [y].
Proof. rewrite <- (Nat.add_0_r (length xs)), insert_app_r. reflexivity. Qed.

(** [Add] on a scalable filter, case by case *)
Lemma Scalable_Add_eq sbf fs last item σ :
  ScalableFilter.bfs sbf = fs ++ [last] →
  ScalableFilter.Add sbf item σ
  = if (ScalableFilter.p sbf <? Filter.EstimatedFillRatio last)%float
    then match New (ScalableFilter.n sbf)
                 (ScalableFilter.opt sbf ++ [WithErrorRate (tightened sbf)]) σ with
         | Ok (nf, σ1) =>
             match Filter.Add nf item σ1 with
             | Ok (f, σ') =>
                 Ok (ScalableFilter.with_c (ScalableFilter.with_bfs sbf (fs ++ [last; f]))
                       (u64 (ScalableFilter.c sbf + 1)), σ')
             | Panic msg => Panic msg
             end
         | Panic msg => Panic msg
         end
    else match Filter.Add last item σ with
         | Ok (f, σ') =>
             Ok (ScalableFilter.with_c (ScalableFilter.with_bfs sbf (fs ++ [f]))
                   (u64 (ScalableFilter.c sbf + 1)), σ')
         | Panic msg => Panic msg
         end.
Proof.
  intros Hbfs. unfold ScalableFilter.Add.
  unfold bind at 1. unfold lift at 1. rewrite Hbfs at 1 2. rewrite index_int_last.
  destruct (ScalableFilter.p sbf <? Filter.EstimatedFillRatio last)%float.
  - unfold bind at 1 2. unfold ScalableFilter.addBloomFilter, bind at 1.
    fold (tightened sbf).
    destruct (New _ _ σ) as [[nf σ1]|msg]; [| reflexivity].
    unfold ret at 1 2. unfold bind at 1. unfold lift at 1.
    cbn [ScalableFilter.bfs ScalableFilter.with_bfs].
    rewrite Hbfs.
    replace (Z.of_nat (length (fs ++ [last])) - 1 + 1)%Z
      with (Z.of_nat (length ((fs ++ [last]) ++ [nf])) - 1)%Z
      by (rewrite !length_app; simpl; lia).
    rewrite index_int_last. unfold bind.
    destruct (Filter.Add _ item _) as [[f σ']|msg]; [| reflexivity].
    unfold ret. do 2 f_equal.
    rewrite !length_app. simpl.
    replace (Z.to_nat (Z.of_nat (length fs + 1 + 1) - 1)) with (length (fs ++ [last]))
      by (rewrite length_app; simpl; lia).
    rewrite insert_last. unfold ScalableFilter.with_c, ScalableFilter.with_bfs. simpl.
    by rewrite <- !app_assoc.
  - unfold ret at 1. unfold bind at 1 2. unfold lift at 1. rewrite Hbfs at 1 2.
    rewrite index_int_last. unfold bind.
    destruct (Filter.Add last item σ) as [[f σ']|msg]; [| reflexivity].
    unfold ret. do 2 f_equal. rewrite Hbfs, length_app. simpl.
    replace (Z.to_nat (Z.of_nat (length fs + 1) - 1)) with (length fs) by lia.
    by rewrite insert_last.
Qed.

End Construction.

(** ** The scalable filter *)

Lemma Forall2_filter_le_refl fs : Forall2 filter_le fs fs.
Proof. induction fs; constructor; auto using filter_le_refl. Qed.

Lemma Forall2_filter_le_insert fs i g g' :
  fs !! i = Some g → filter_le g g' → Forall2 filter_le fs (<[i := g']> fs).
Proof.
  intros Hi Hle. rewrite <- (list_insert_id fs i g Hi) at 1.
  apply Forall2_insert; auto using Forall2_filter_le_refl.
Qed.

Lemma Forall2_filter_le_trans fs1 fs2 fs3 :
  Forall2 filter_le fs1 fs2 → Forall2 filter_le fs2 fs3 → Forall2 filter_le fs1 fs3.
Proof. apply Forall2_trans. intros ???. apply filter_le_trans. Qed.

Lemma Scalable_Check_loop_le cnt fs item σ r fs' σ' :
  ScalableFilter.Check_loop cnt fs item σ = Ok ((r, fs'), σ') →
  Forall2 filter_le fs fs' ∧ heap_le σ σ' ∧ (digests_ok σ → digests_ok σ').
Proof.
  revert fs σ. induction cnt as [|i IH]; intros fs σ H; simpl in H.
  - apply ret_Ok in H as [[= -> ->] ->].
    auto using Forall2_filter_le_refl, heap_le_refl.
  - inv_M. unfold index in *.
    destruct (fs !! i) as [g|] eqn:Hi; [| discriminate].
    match goal with H : Ok _ = Ok _ |- _ => injection H as <- end. subst.
    match goal with H : Filter.Check _ _ _ = Ok _ |- _ =>
      apply Check_le in H as (Hle & Hheap & Hok) end.
    pose proof (Forall2_filter_le_insert _ _ _ _ Hi Hle) as Hfs.
    match goal with H : (if ?b then _ else _) _ = Ok _ |- _ => destruct b end.
    + apply ret_Ok in H as [[= -> ->] ->]. auto.
    + apply IH in H as (Hfs' & Hheap' & Hok').
      split_and!; eauto using Forall2_filter_le_trans, heap_le_trans.
Qed.

Lemma key_kept_le σ σ' fs fs' item :
  key_kept σ fs item → Forall2 filter_le fs fs' → heap_le σ σ' → key_kept σ' fs' item.
Proof.
  intros (j & f & d & Hj & Hw & Hr & Hafter) Hfs Hheap.
  destruct (Forall2_lookup_l _ _ _ _ _ Hfs Hj) as (f' & Hj' & Hle).
  exists j, f', d. split_and!; eauto using hashes_with_le, recorded_le.
  intros j' g' Hlt Hg'.
  destruct (Forall2_lookup_r _ _ _ _ _ Hfs Hg') as (g & Hg & Hle').
  eauto using usable_le.
Qed.

Lemma key_kept_snoc σ fs g item : key_kept σ fs item → usable σ g → key_kept σ (fs ++ [g]) item.
Proof.
  intros (j & f & d & Hj & Hw & Hr & Hafter) Hg.
  exists j, f, d. split_and!; trivial.
  - by apply lookup_app_l_Some.
  - intros j' g' Hlt Hg'. apply lookup_app_Some in Hg' as [Hg'|[_ Hg']]; [eauto |].
    apply list_lookup_singleton_Some in Hg' as [_ <-]. exact Hg.
Qed.

Lemma key_kept_last σ fs f d item :
  hashes_with σ f d → recorded f (d item) → key_kept σ (fs ++ [f]) item.
Proof.
  intros Hw Hr. exists (length fs), f, d. split_and!; trivial.
  - by rewrite list_lookup_middle.
  - intros j' g Hlt Hg. apply lookup_lt_Some in Hg. rewrite length_app in Hg. simpl in Hg. lia.
Qed.

(** From a sub-filter that has the key, [Check]'s loop is on its way to
    [true]. *)
Lemma Scalable_Check_loop_true cnt fs item σ j f d :
  digests_ok σ →
  fs !! j = Some f → hashes_with σ f d → recorded f (d item) →
  (∀ j' g, (j < j')%nat → fs !! j' = Some g → usable σ g) →
  (j < cnt ≤ length fs)%nat →
  ∃ fs' σ', ScalableFilter.Check_loop cnt fs item σ = Ok ((true, fs'), σ').
Proof.
  revert fs σ. induction cnt as [|i IH]; intros fs σ Hok Hj Hw Hr Hafter Hlt; [lia |].
  simpl. destruct (decide (i = j)) as [->|Hne].
  - destruct (recorded_Check _ _ _ _ Hr Hw) as (f' & σ' & HCheck).
    unfold bind, lift, index. rewrite Hj, HCheck. unfold ret. eauto.
  - destruct (lookup_lt_is_Some_2 fs i) as [g Hg]; [lia |].
    assert (usable σ g) as Hu by (apply (Hafter i); [lia | trivial]).
    destruct (usable_Check σ g item Hok Hu) as (r & g' & σ1 & HCheck).
    unfold bind, lift, index. rewrite Hg, HCheck.
    destruct r; [unfold ret; eauto |].
    apply Check_le in HCheck as (Hle & Hheap & Hok1).
    apply IH.
    + auto.
    + by rewrite list_lookup_insert_ne.
    + eauto using hashes_with_le, filter_le_refl.
    + trivial.
    + intros j' g1 Hjj' Hg1. destruct (decide (i = j')) as [<-|Hne'].
      * rewrite list_lookup_insert_eq in Hg1 by lia. injection Hg1 as <-.
        eauto using usable_le.
      * rewrite list_lookup_insert_ne in Hg1 by trivial.
        eauto using usable_le, filter_le_refl.
    + rewrite length_insert. lia.
Qed.

Section Scalable.
Context `{!GoLib}.

Lemma Scalable_Add_Ok sbf item σ sbf' σ' :
  ScalableFilter.Add sbf item σ = Ok (sbf', σ') →
  ∃ fs last, ScalableFilter.bfs sbf = fs ++ [last]
    ∧ (((ScalableFilter.p sbf <? Filter.EstimatedFillRatio last)%float = true
        ∧ ScalableFilter.n sbf ≠ 0
        ∧ ∃ f, Filter.Add (New_state (ScalableFilter.n sbf)
                             (ScalableFilter.opt sbf ++ [WithErrorRate (tightened sbf)])
                             (length σ))
                  item (σ ++ [cityhash_obj]) = Ok (f, σ')
               ∧ sbf' = ScalableFilter.with_c
                          (ScalableFilter.with_bfs sbf (fs ++ [last; f]))
                          (u64 (ScalableFilter.c sbf + 1)))
       ∨ ((ScalableFilter.p sbf <? Filter.EstimatedFillRatio last)%float = false
          ∧ ∃ f, Filter.Add last item σ = Ok (f, σ')
                 ∧ sbf' = ScalableFilter.with_c (ScalableFilter.with_bfs sbf (fs ++ [f]))
                            (u64 (ScalableFilter.c sbf + 1)))).
Proof.
  intros HA.
  assert (∃ fs last, ScalableFilter.bfs sbf = fs ++ [last]) as (fs & last & Hbfs).
  { unfold ScalableFilter.Add in HA. apply bind_Ok in HA as (last & ? & Hlast & _).
    apply lift_Ok in Hlast as [Hlast _]. apply index_int_Ok_last in Hlast as [fs ?]. eauto. }
  exists fs, last. split; [trivial |].
  rewrite (Scalable_Add_eq _ _ _ _ _ Hbfs) in HA.
  destruct (ScalableFilter.p sbf <? Filter.EstimatedFillRatio last)%float.
  - left. destruct (N.eq_dec (ScalableFilter.n sbf) 0) as [Hn|Hn].
    + rewrite Hn, New_zero in HA. discriminate.
    + rewrite New_eq in HA by trivial.
      destruct (Filter.Add _ _ _) as [[f σ1]|] eqn:HAdd; [| discriminate].
      injection HA as <- <-. eauto 10.
  - right. destruct (Filter.Add _ _ _) as [[f σ1]|] eqn:HAdd; [| discriminate].
    injection HA as <- <-. eauto.
Qed.

Lemma cityhash_obj_digest (Hcity : ∀ x, (8 ≤ length (cityhash_New64 x))%nat) :
  ∀ x, (8 ≤ length (hash.digest cityhash_obj x))%nat.
Proof. exact Hcity. Qed.

Lemma Scalable_Add_recorded sbf item σ sbf' σ' :
  ScalableFilter.Add sbf item σ = Ok (sbf', σ') →
  key_kept σ' (ScalableFilter.bfs sbf') item.
Proof.
  intros (fs & last & Hbfs & [(_ & _ & f & HAdd & ->)|(_ & f & HAdd & ->)])%Scalable_Add_Ok.
  - apply Add_recorded in HAdd as (d & _ & Hw & Hr). simpl.
    change (fs ++ [last; f]) with (fs ++ [last] ++ [f]). rewrite app_assoc.
    by eapply key_kept_last.
  - apply Add_recorded in HAdd as (d & _ & Hw & Hr). simpl. by eapply key_kept_last.
Qed.

Lemma Scalable_Add_keeps (Hcity : ∀ x, (8 ≤ length (cityhash_New64 x))%nat)
    sbf item key σ sbf' σ' :
  digests_ok σ → key_kept σ (ScalableFilter.bfs sbf) key →
  ScalableFilter.Add sbf item σ = Ok (sbf', σ') →
  digests_ok σ' ∧ key_kept σ' (ScalableFilter.bfs sbf') key.
Proof.
  intros Hok Hkept
    (fs & last & Hbfs & [(_ & _ & f & HAdd & ->)|(_ & f & HAdd & ->)])%Scalable_Add_Ok.
  - apply Add_le in HAdd as (_ & Hheap & Hok' & Hu). split.
    + apply Hok'. apply digests_ok_alloc; trivial.
    + simpl. change (fs ++ [last; f]) with (fs ++ [last] ++ [f]). rewrite app_assoc, <- Hbfs.
      apply key_kept_snoc; [| trivial].
      eapply key_kept_le; eauto using Forall2_filter_le_refl, heap_le_trans, heap_le_alloc.
  - apply Add_le in HAdd as (Hle & Hheap & Hok' & _). split; [auto |].
    simpl. eapply key_kept_le; eauto. rewrite Hbfs.
    apply Forall2_app; [apply Forall2_filter_le_refl | by constructor].
Qed.

Lemma Scalable_Check_keeps sbf item key σ r sbf' σ' :
  digests_ok σ → key_kept σ (ScalableFilter.bfs sbf) key →
  ScalableFilter.Check sbf item σ = Ok ((r, sbf'), σ') →
  digests_ok σ' ∧ key_kept σ' (ScalableFilter.bfs sbf') key.
Proof.
  intros Hok Hkept HC. unfold ScalableFilter.Check in HC.
  apply bind_Ok in HC as ([r' fs'] & σ1 & Hloop & HC). apply ret_Ok in HC as [[= -> ->] ->].
  apply Scalable_Check_loop_le in Hloop as (Hfs & Hheap & Hok'). split; [auto |].
  simpl. eauto using key_kept_le.
Qed.

Lemma key_kept_Check sbf item σ :
  digests_ok σ → key_kept σ (ScalableFilter.bfs sbf) item →
  ∃ sbf' σ', ScalableFilter.Check sbf item σ = Ok ((true, sbf'), σ').
Proof.
  intros Hok (j & f & d & Hj & Hw & Hr & Hafter).
  destruct (Scalable_Check_loop_true (length (ScalableFilter.bfs sbf))
              (ScalableFilter.bfs sbf) item σ j f d) as (fs' & σ' & Hloop); trivial.
  { apply lookup_lt_Some in Hj. lia. }
  unfold ScalableFilter.Check, bind. rewrite Hloop. unfold ret. eauto.
Qed.

Lemma Scalable_run_keeps (Hcity : ∀ x, (8 ≤ length (cityhash_New64 x))%nat)
    calls sbf key σ sbf' σ' :
  CallReset ∉ calls →
  digests_ok σ → key_kept σ (ScalableFilter.bfs sbf) key →
  Scalable_run calls sbf σ = Ok (sbf', σ') →
  digests_ok σ' ∧ key_kept σ' (ScalableFilter.bfs sbf') key.
Proof.
  revert sbf σ. induction calls as [|call calls IH]; intros sbf σ Hno Hok Hkept Hrun.
  - apply ret_Ok in Hrun as [-> ->]. auto.
  - apply not_elem_of_cons in Hno as [Hne Hno].
    destruct call as [item|item| | |]; simpl in Hrun;
      apply bind_Ok in Hrun as (x & σ1 & Hcall & Hrun).
    + destruct (Scalable_Add_keeps Hcity _ _ _ _ _ _ Hok Hkept Hcall). eauto.
    + destruct x as [r sbf1].
      destruct (Scalable_Check_keeps _ _ _ _ _ _ _ Hok Hkept Hcall). eauto.
    + contradiction.
    + apply lift_Ok in Hcall as [_ ->]. eauto.
    + apply lift_Ok in Hcall as [_ ->]. eauto.
Qed.

End Scalable.

(** ** The indices *)

Lemma be_value_take4_lt (D : list byte) : be_value (take 4 D) < 2 ^ 32.
Proof.
  destruct D as [|b0 [|b1 [|b2 [|b3 rest]]]]; unfold be_value; simpl.
  - lia.
  - pose proof (byte_val_lt b0). lia.
  - pose proof (byte_val_lt b0). pose proof (byte_val_lt b1). lia.
  - pose proof (byte_val_lt b0). pose proof (byte_val_lt b1).
    pose proof (byte_val_lt b2). lia.
  - pose proof (byte_val_lt b0). pose proof (byte_val_lt b1).
    pose proof (byte_val_lt b2). pose proof (byte_val_lt b3). lia.
Qed.

Lemma bit_index_spec D s i :
  i ≤ 2 ^ 32 → bit_index (digest_a D) (digest_b D) s i = spec_index D s i.
Proof.
  intros Hi. unfold bit_index, spec_index, digest_a, digest_b, u64.
  pose proof (be_value_take4_lt D) as Hb. pose proof (be_value_take4_lt (drop 4 D)) as Ha.
  assert (be_value (take 4 D) * i ≤ (2 ^ 32 - 1) * 2 ^ 32) as Hmul
    by (apply N.mul_le_mono; lia).
  change (2 ^ 32) with 4294967296 in *. change (2 ^ 64) with 18446744073709551616.
  rewrite (N.mod_small (_ * _)) by lia.
  rewrite (N.mod_small _ 18446744073709551616) by lia.
  f_equal. lia.
Qed.

Lemma partitioned_same :
  partitioned.bits = Filter.bits ∧ partitioned.Add = Filter.Add
  ∧ partitioned.Check = Filter.Check.
Proof. by split_and!. Qed.

Lemma Filter_uses_spec_indices : uses_spec_indices Filter.bits Filter.Add Filter.Check.
Proof.
  intros f item σ ho (l & Hh & Hl)%hash_at_Some Hr Hb Hk idx.
  assert (∀ i, i < Filter.k f →
            indices (hash.digest ho item) (Filter.k f) (Filter.s f) !! N.to_nat i
            = Some (idx i)) as Hidx.
  { intros i Hi. rewrite indices_lookup by lia. rewrite N2Nat.id.
    f_equal. apply bit_index_spec. lia. }
  split_and!.
  - eexists _, _. split; [apply bits_Ok; eauto 10 |].
    intros i Hi. unfold bits_state. simpl.
    rewrite lookup_app_l by (rewrite length_indices; lia). auto.
  - eexists _, _. split; [apply Add_Ok; eauto 10 |].
    intros i Hi. unfold Add_state. simpl.
    destruct (lookup_lt_is_Some_2 (Filter.b f) (N.to_nat i)) as [x Hx]; [lia |].
    rewrite (set_bits_lookup _ _ _ _ _ Hx), Hx, decide_True by lia.
    by rewrite Nat.sub_0_r, Hidx.
  - destruct (Check_loop_total 0 (indices (hash.digest ho item) (Filter.k f) (Filter.s f))
                (Filter.b f)) as [r Hloop].
    { rewrite length_indices. simpl. lia. }
    exists r. eexists _, _. split; [apply Check_Ok; eauto 10 |].
    assert (Filter.Check_loop 0 (indices (hash.digest ho item) (Filter.k f) (Filter.s f))
              (Filter.b f) = Ok true ↔ r = true) as <-.
    { rewrite Hloop. split; congruence. }
    rewrite Check_loop_true. unfold all_set. simpl. split.
    + intros Hset i Hi. apply Hset. auto.
    + intros Hset j v Hj. pose proof (lookup_lt_Some _ _ _ Hj) as Hlt.
      rewrite length_indices in Hlt.
      destruct (Hset (N.of_nat j)) as (x & Hx & Ht); [lia |].
      rewrite Nat2N.id in Hx.
      specialize (Hidx (N.of_nat j)). rewrite Nat2N.id in Hidx.
      rewrite Hidx in Hj by lia. injection Hj as <-. eauto.
Qed.

(** ** Repeated reads *)

Lemma filter_same_refl f : filter_same f f.
Proof. unfold filter_same. by split_and!. Qed.

Lemma filter_same_trans f1 f2 f3 : filter_same f1 f2 → filter_same f2 f3 → filter_same f1 f3.
Proof. unfold filter_same. intros (?&?&?&?&?&?) (?&?&?&?&?&?). split_and!; try congruence; lia. Qed.

Lemma Check_same f item σ r f' σ' :
  Filter.Check f item σ = Ok ((r, f'), σ') → filter_same f f' ∧ heap_le σ σ'.
Proof.
  intros (l & ho & Hh & Hl & (_ & Hk & _) & Hloop & -> & ->)%Check_Ok. split.
  - unfold filter_same, bits_state. simpl. split_and!; trivial.
    rewrite length_app, length_indices, length_drop. lia.
  - by apply heap_le_hashed.
Qed.

Lemma Filter_run_Check_same items f σ f' σ' :
  Filter_run (OpCheck <$> items) f σ = Ok (f', σ') → filter_same f f' ∧ heap_le σ σ'.
Proof.
  revert f σ. induction items as [|item items IH]; intros f σ Hrun; simpl in Hrun.
  - apply ret_Ok in Hrun as [-> ->]. auto using filter_same_refl, heap_le_refl.
  - apply bind_Ok in Hrun as ([r f1] & σ1 & HCheck & Hrun).
    apply Check_same in HCheck as [Hs Hh]. apply IH in Hrun as [Hs' Hh'].
    eauto using filter_same_trans, heap_le_trans.
Qed.

Lemma Check_stable f f' σ σ' item r f1 σ1 :
  Filter.Check f item σ = Ok ((r, f1), σ1) → filter_same f f' → heap_le σ σ' →
  ∃ f2 σ2, Filter.Check f' item σ' = Ok ((r, f2), σ2).
Proof.
  intros (l & ho & Hh & Hl & (HD & Hk & Hs) & Hloop & -> & ->)%Check_Ok
         (Hh' & Hk' & Hs' & Hb' & _ & Hbs') Hle.
  destruct (Hle _ _ Hl) as (ho' & Hl' & E). apply (f_equal (λ d, d item)) in E.
  eexists _, _. apply Check_Ok. exists l, ho'. rewrite Hh', Hk', Hs', Hb', E.
  split_and!; trivial. unfold bits_ready. rewrite Hk', Hs'. split_and!; trivial. lia.
Qed.

(** The second of two [Check]s in a row leaves everything as it finds it. *)
Lemma Check_twice f item σ r f1 σ1 :
  Filter.Check f item σ = Ok ((r, f1), σ1) → Filter.Check f1 item σ1 = Ok ((r, f1), σ1).
Proof.
  intros (l & ho & Hh & Hl & Hr & Hloop & -> & ->)%Check_Ok.
  apply Check_Ok. exists l, (hashed ho item). simpl. split_and!; trivial.
  - apply list_lookup_insert_eq. by eapply lookup_lt_Some.
  - by apply bits_ready_bits_state.
  - by rewrite bits_state_idem.
  - by rewrite list_insert_insert_eq.
Qed.

(** ** The sequence of sub-filters *)

Section Subfilters.
Context `{!GoLib}.

Lemma addBloomFilter_Ok sbf σ sbf' σ' :
  ScalableFilter.addBloomFilter sbf σ = Ok (sbf', σ') →
  ∃ f, sbf' = ScalableFilter.with_bfs sbf (ScalableFilter.bfs sbf ++ [f]).
Proof.
  unfold ScalableFilter.addBloomFilter. intros HA. inv_M. subst. eauto.
Qed.

Lemma NewScalable_Ok n opt σ sbf σ' :
  NewScalable n opt σ = Ok (sbf, σ') →
  n ≠ 0 ∧ ScalableFilter.n sbf = n ∧ ScalableFilter.c sbf = 0
  ∧ ∃ f, ScalableFilter.bfs sbf = [f].
Proof.
  unfold NewScalable. destruct (N.eqb_spec n 0) as [|Hn]; [discriminate |].
  intros HN. inv_M. subst.
  match goal with H : ScalableFilter.addBloomFilter _ _ = Ok _ |- _ =>
    apply addBloomFilter_Ok in H as [f ->] end.
  simpl. eauto.
Qed.

Lemma Scalable_Reset_Ok sbf σ sbf' σ' :
  ScalableFilter.Reset sbf σ = Ok (sbf', σ') →
  ScalableFilter.c sbf' = 0 ∧ ∃ f, ScalableFilter.bfs sbf' = [f].
Proof.
  unfold ScalableFilter.Reset. intros [f ->]%addBloomFilter_Ok. simpl. eauto.
Qed.

Lemma Scalable_call_nonempty calls sbf σ sbf' σ' :
  ScalableFilter.bfs sbf ≠ [] →
  Scalable_run calls sbf σ = Ok (sbf', σ') →
  ScalableFilter.bfs sbf' ≠ [].
Proof.
  revert sbf σ. induction calls as [|call calls IH]; intros sbf σ Hne Hrun.
  - apply ret_Ok in Hrun as [-> ->]. trivial.
  - destruct call as [item|item| | |]; simpl in Hrun;
      apply bind_Ok in Hrun as (x & σ1 & Hcall & Hrun).
    + refine (IH _ _ _ Hrun).
      apply Scalable_Add_Ok in Hcall
        as (fs & last & _ & [(_ & _ & f & _ & ->)|(_ & f & _ & ->)]); simpl;
        by destruct fs.
    + destruct x as [r sbf1]. refine (IH _ _ _ Hrun).
      unfold ScalableFilter.Check in Hcall. inv_M.
      match goal with H : (_, _) = (_, _) |- _ => injection H as -> -> end.
      match goal with H : ScalableFilter.Check_loop _ _ _ _ = Ok _ |- _ =>
        apply Scalable_Check_loop_le in H as (Hfs%Forall2_length & _) end.
      simpl. destruct (ScalableFilter.bfs sbf); [contradiction |].
      intros ->. discriminate.
    + refine (IH _ _ _ Hrun).
      apply Scalable_Reset_Ok in Hcall as (_ & f & ->). discriminate.
    + apply lift_Ok in Hcall as [_ ->]. eauto.
    + apply lift_Ok in Hcall as [_ ->]. eauto.
Qed.

Lemma nonempty_last {A} (xs : list A) :
  xs ≠ [] → ∃ x, index_int xs (Z.of_nat (length xs) - 1) = Ok x.
Proof.
  destruct xs as [|x xs _] using rev_ind; [contradiction |].
  intros _. exists x. apply index_int_last.
Qed.

End Subfilters.

(** ** [Reset] *)

Lemma Filter_Reset_Ok f σ f' σ' :
  Filter.Reset f σ = Ok (f', σ') ↔
  ∃ l ho, Filter.h f = Some l ∧ σ !! l = Some ho
          ∧ f' = Filter.with_b f (map bitset.ClearAll (Filter.b f))
          ∧ σ' = <[l := hash.mk (hash.digest ho) []]> σ.
Proof.
  unfold Filter.Reset. rewrite bind_Ok. simpl. split.
  - intros ([] & σ1 & (l & ho & Hh & Hl & ->)%hash_Reset_Ok & [-> ->]%ret_Ok). eauto 10.
  - intros (l & ho & Hh & Hl & -> & ->). exists tt. eexists. split; [| reflexivity].
    apply hash_Reset_Ok. eauto.
Qed.

(** What [Reset] of bloom.go does: the partitions are cleared and the hash
    object is reset; the parameters and the counter stay. *)
Lemma Filter_Reset_effects f σ f' σ' :
  Filter.Reset f σ = Ok (f', σ') →
  (∀ i x v, Filter.b f' !! i = Some x → bitset.Test x v = false)
  ∧ length (Filter.b f') = length (Filter.b f)
  ∧ (Filter.k f', Filter.m f', Filter.s f') = (Filter.k f, Filter.m f, Filter.s f)
  ∧ (∃ ho, hash_at σ' (Filter.h f') = Some ho ∧ hash.written ho = [])
  ∧ Filter.c f' = Filter.c f.
Proof.
  intros (l & ho & Hh & Hl & -> & ->)%Filter_Reset_Ok. simpl. split_and!; trivial.
  - intros i x v Hx. rewrite list_lookup_fmap in Hx.
    destruct (Filter.b f !! i); [| discriminate]. injection Hx as <-. apply Test_ClearAll.
  - by rewrite length_map.
  - rewrite Hh. simpl. eexists.
    split; [apply list_lookup_insert_eq; by eapply lookup_lt_Some | reflexivity].
Qed.

Section Partitioned.
Context `{!GoLib}.

Lemma partitioned_New_eq n σ :
  ∃ f, partitioned.New n σ = Ok (f, σ ++ [hash.mk fnv_New64 []])
       ∧ Filter.n f = n ∧ Filter.c f = 0 ∧ Filter.h f = Some (length σ).
Proof. eexists. split; [reflexivity |]. by split_and!. Qed.

(** What [Reset] of partitioned.go does: [k], [m], [s] are computed from the
    current [e], [p], [n], the partitions are made anew and the hash object
    is reset or created; the counter stays. *)
Lemma partitioned_Reset_effects bf σ bf' σ' :
  partitioned.Reset bf σ = Ok (bf', σ') →
  Filter.k bf' = partitioned.bloom_K (Filter.e bf)
  ∧ Filter.m bf' = partitioned.bloom_M (Filter.n bf) (Filter.p bf) (Filter.e bf)
  ∧ Filter.s bf' = partitioned.bloom_S (Filter.m bf') (Filter.k bf')
  ∧ (Filter.e bf', Filter.p bf', Filter.n bf') = (Filter.e bf, Filter.p bf, Filter.n bf)
  ∧ length (Filter.b bf') = N.to_nat (Filter.k bf')
  ∧ length (Filter.bs bf') = N.to_nat (Filter.k bf')
  ∧ (∀ i x v, Filter.b bf' !! i = Some x → bitset.Test x v = false)
  ∧ (∃ ho, hash_at σ' (Filter.h bf') = Some ho ∧ hash.written ho = [])
  ∧ Filter.c bf' = Filter.c bf.
Proof.
  unfold partitioned.Reset. simpl. intros HR.
  assert (∀ k s i x v, makePartitions k s !! i = Some x → bitset.Test x v = false) as Hclear.
  { intros k s i x v [-> _]%lookup_replicate. apply Test_New. }
  destruct (Filter.h bf) as [l|] eqn:Hh.
  - apply bind_Ok in HR as ([] & σ1 & (l' & ho & [= <-] & Hl & ->)%hash_Reset_Ok
                            & [-> ->]%ret_Ok).
    simpl. unfold makePartitions. rewrite !length_replicate. split_and!; eauto.
    eexists.
    split; [apply list_lookup_insert_eq; by eapply lookup_lt_Some | reflexivity].
  - apply bind_Ok in HR as (r & σ1 & [= <- <-] & [-> ->]%ret_Ok).
    simpl. unfold makePartitions. rewrite !length_replicate. split_and!; eauto.
    eexists. split; [by rewrite list_lookup_middle | reflexivity].
Qed.

(** [SetErrorProbability] stores the rate; [Add] and [Check] do not read it. *)
Lemma SetErrorProbability_bits bf e item σ :
  partitioned.bits (partitioned.SetErrorProbability bf e) item σ
  = match partitioned.bits bf item σ with
    | Ok (bf', σ') => Ok (partitioned.SetErrorProbability bf' e, σ')
    | Panic msg => Panic msg
    end.
Proof.
  unfold partitioned.bits, partitioned.SetErrorProbability, Filter.with_e, bind. simpl.
  repeat match goal with
    | |- context [match ?x with _ => _ end] =>
        lazymatch x with
        | context [match _ with _ => _ end] => fail
        | _ => destruct x as [[? ?]|?]; simpl; trivial
        end
    end.
Qed.

End Partitioned.

Section Setters.
Context `{!GoLib}.

Lemma SetErrorProbability_Add bf e item σ :
  partitioned.Add (partitioned.SetErrorProbability bf e) item σ
  = match partitioned.Add bf item σ with
    | Ok (bf', σ') => Ok (partitioned.SetErrorProbability bf' e, σ')
    | Panic msg => Panic msg
    end.
Proof.
  unfold partitioned.Add, bind. rewrite SetErrorProbability_bits.
  destruct (partitioned.bits bf item σ) as [[bf' σ']|]; [| reflexivity].
  unfold lift, partitioned.SetErrorProbability, Filter.with_e. simpl.
  destruct (slice _ _ _); [| reflexivity].
  destruct (Filter.Add_loop _ _ _); reflexivity.
Qed.

Lemma SetErrorProbability_Check bf e item σ :
  partitioned.Check (partitioned.SetErrorProbability bf e) item σ
  = match partitioned.Check bf item σ with
    | Ok ((r, bf'), σ') => Ok ((r, partitioned.SetErrorProbability bf' e), σ')
    | Panic msg => Panic msg
    end.
Proof.
  unfold partitioned.Check, bind. rewrite SetErrorProbability_bits.
  destruct (partitioned.bits bf item σ) as [[bf' σ']|]; [| reflexivity].
  unfold lift, partitioned.SetErrorProbability, Filter.with_e. simpl.
  destruct (slice _ _ _); [| reflexivity].
  destruct (Filter.Check_loop _ _ _); reflexivity.
Qed.

(** After [SetHasher], [Check] hashes with the new object at once. *)
Lemma SetHasher_Check bf h item σ r bf' σ' :
  partitioned.Check (partitioned.SetHasher bf h) item σ = Ok ((r, bf'), σ') →
  ∃ ho, hash_at σ h = Some ho
        ∧ (r = true ↔
           all_set 0 (indices (hash.digest ho item) (Filter.k bf) (Filter.s bf))
             (Filter.b bf)).
Proof.
  intros (l & ho & Hh & Hl & _ & Hloop & _)%Check_Ok. simpl in *. subst h.
  exists ho. split; [exact Hl |]. rewrite <- Check_loop_true, Hloop. split; congruence.
Qed.

Lemma SetHasher_Add bf h item σ bf' σ' :
  partitioned.Add (partitioned.SetHasher bf h) item σ = Ok (bf', σ') →
  ∃ ho, hash_at σ h = Some ho
        ∧ Filter.b bf'
          = set_bits 0 (indices (hash.digest ho item) (Filter.k bf) (Filter.s bf))
              (Filter.b bf).
Proof.
  intros (l & ho & Hh & Hl & _ & _ & -> & _)%Add_Ok. simpl in *. subst h.
  exists ho. split; [exact Hl | reflexivity].
Qed.

(** ** The rate options *)

Lemma New_rates n e p σ :
  n ≠ 0 →
  ∃ f σ', New n [WithErrorRate e; WithFillRatio p] σ = Ok (f, σ')
          ∧ Filter.e f = clamp_e e ∧ Filter.p f = clamp_p p.
Proof. intros Hn. eexists _, _. rewrite New_eq by trivial. by split_and!. Qed.

Lemma NewScalable_rates n e p σ :
  n ≠ 0 →
  ∃ sbf σ', NewScalable n [WithErrorRate e; WithFillRatio p] σ = Ok (sbf, σ')
            ∧ ScalableFilter.e sbf = clamp_e e ∧ ScalableFilter.p sbf = clamp_p p
            ∧ ∃ f, ScalableFilter.bfs sbf = [f] ∧ Filter.p f = clamp_p p.
Proof.
  intros Hn. eexists _, _. unfold NewScalable.
  destruct (N.eqb_spec n 0) as [|_]; [contradiction |].
  unfold bind. destruct (withDefault_eq [WithErrorRate e; WithFillRatio p] σ) as (o & -> & Ho).
  rewrite addBloomFilter_eq by trivial. simpl. rewrite !Ho. simpl.
  split_and!; try reflexivity. eexists. split; [reflexivity |].
  unfold New_state, New_params. simpl. reflexivity.
Qed.

End Setters.

(** * The claims *)

Section Claims.
Context `{!GoLib}.

(** C1 (no false negatives).  In a partitioned filter, once [Add] has
    returned for a key, [Check] of that key returns [true], then and after
    any further calls of [Add] and [Check].  The same holds in a scalable
    filter for any further calls other than [Reset], when every hash object
    yields digests of eight bytes or more. *)
Theorem no_false_negatives :
  (∀ f item σ f1 σ1 ops f2 σ2,
     Filter.Add f item σ = Ok (f1, σ1) →
     Filter_run ops f1 σ1 = Ok (f2, σ2) →
     ∃ f3 σ3, Filter.Check f2 item σ2 = Ok ((true, f3), σ3))
  ∧ (∀ sbf item σ sbf1 σ1 calls sbf2 σ2,
       (∀ x, (8 ≤ length (cityhash_New64 x))%nat) →
       digests_ok σ →
       ScalableFilter.Add sbf item σ = Ok (sbf1, σ1) →
       CallReset ∉ calls →
       Scalable_run calls sbf1 σ1 = Ok (sbf2, σ2) →
       ∃ sbf3 σ3, ScalableFilter.Check sbf2 item σ2 = Ok ((true, sbf3), σ3)).
Proof.
  split.
  - intros f item σ f1 σ1 ops f2 σ2 (d & _ & Hw & Hr)%Add_recorded Hrun.
    destruct (Filter_run_keeps_recorded _ _ _ _ _ _ _ Hr Hw Hrun).
    by eapply recorded_Check.
  - intros sbf item σ sbf1 σ1 calls sbf2 σ2 Hcity Hok HAdd Hno Hrun.
    assert (digests_ok σ1) as Hok1.
    { apply Scalable_Add_Ok in HAdd
        as (fs & last & _ & [(_ & _ & f & HA & _)|(_ & f & HA & _)]);
        apply Add_le in HA as (_ & _ & Hd & _); apply Hd; trivial.
      by apply digests_ok_alloc. }
    apply Scalable_Add_recorded in HAdd.
    destruct (Scalable_run_keeps Hcity _ _ _ _ _ _ Hno Hok1 HAdd Hrun) as [Hok2 Hkept].
    by apply key_kept_Check.
Qed.


(** C4 (zero capacity).  [New] and [NewScalable] of the root package panic
    with "n == 0"; [partitioned.New] has no such check and returns a filter
    of capacity zero. *)
Theorem zero_capacity opt σ :
  New 0 opt σ = Panic "n == 0"
  ∧ NewScalable 0 opt σ = Panic "n == 0"
  ∧ ∃ bf σ', partitioned.New 0 σ = Ok (bf, σ') ∧ Filter.n bf = 0.
Proof.
  split_and!; try reflexivity.
  destruct (partitioned_New_eq 0 σ) as (bf & HN & Hn & _). eauto.
Qed.

(** C5 (bit indices).  For a key whose digest has eight bytes or more, in a
    filter of at most [2^32] partitions, [bits] computes for every [i] below
    [k] the index [(a + i·b) mod s], [a] being the big-endian value of bytes
    [4:8) of the digest and [b] that of bytes [0:4); [Add] sets and [Check]
    tests the bit of that index in partition [i].  This holds for the
    methods of bloom.go and for those of partitioned.go. *)
Theorem bit_indices :
  uses_spec_indices Filter.bits Filter.Add Filter.Check
  ∧ uses_spec_indices partitioned.bits partitioned.Add partitioned.Check.
Proof. split; apply Filter_uses_spec_indices. Qed.


(** C8, amended (setters).  [SetErrorProbability] changes the stored rate
    only: [k], [m], [s] stay, [Add] and [Check] behave as before, and the
    next [Reset] computes [k], [m], [s] from the new rate.  [SetHasher]
    leaves [k], [m], [s], the partitions and the counter as they are, but
    [Add] and [Check] hash with the new object from the next call on. *)
Theorem setters_effect bf :
  (∀ e,
     (Filter.k (partitioned.SetErrorProbability bf e),
      Filter.m (partitioned.SetErrorProbability bf e),
      Filter.s (partitioned.SetErrorProbability bf e))
     = (Filter.k bf, Filter.m bf, Filter.s bf)
     ∧ (∀ item σ,
          partitioned.Add (partitioned.SetErrorProbability bf e) item σ
          = match partitioned.Add bf item σ with
            | Ok (bf', σ') => Ok (partitioned.SetErrorProbability bf' e, σ')
            | Panic msg => Panic msg
            end)
     ∧ (∀ item σ,
          partitioned.Check (partitioned.SetErrorProbability bf e) item σ
          = match partitioned.Check bf item σ with
            | Ok ((r, bf'), σ') => Ok ((r, partitioned.SetErrorProbability bf' e), σ')
            | Panic msg => Panic msg
            end)
     ∧ (∀ σ bf' σ',
          partitioned.Reset (partitioned.SetErrorProbability bf e) σ = Ok (bf', σ') →
          Filter.k bf' = partitioned.bloom_K e
          ∧ Filter.m bf' = partitioned.bloom_M (Filter.n bf) (Filter.p bf) e
          ∧ Filter.s bf' = partitioned.bloom_S (Filter.m bf') (Filter.k bf')))
  ∧ (∀ h,
       (Filter.k (partitioned.SetHasher bf h), Filter.m (partitioned.SetHasher bf h),
        Filter.s (partitioned.SetHasher bf h), Filter.b (partitioned.SetHasher bf h),
        Filter.c (partitioned.SetHasher bf h))
       = (Filter.k bf, Filter.m bf, Filter.s bf, Filter.b bf, Filter.c bf)
       ∧ (∀ item σ r bf' σ',
            partitioned.Check (partitioned.SetHasher bf h) item σ = Ok ((r, bf'), σ') →
            ∃ ho, hash_at σ h = Some ho
                  ∧ (r = true ↔
                     all_set 0 (indices (hash.digest ho item) (Filter.k bf) (Filter.s bf))
                       (Filter.b bf)))
       ∧ (∀ item σ bf' σ',
            partitioned.Add (partitioned.SetHasher bf h) item σ = Ok (bf', σ') →
            ∃ ho, hash_at σ h = Some ho
                  ∧ Filter.b bf'
                    = set_bits 0
                        (indices (hash.digest ho item) (Filter.k bf) (Filter.s bf))
                        (Filter.b bf))).
Proof.
  split.
  - intros e. split_and!; trivial.
    + apply SetErrorProbability_Add.
    + apply SetErrorProbability_Check.
    + intros σ bf' σ' (Hk & Hm & Hs & _)%partitioned_Reset_effects. auto.
  - intros h. split_and!; trivial.
    + apply SetHasher_Check.
    + apply SetHasher_Add.
Qed.

(** C9 (repeated reads).  When [Check] of a key has returned, every later
    [Check] of that key returns the same answer, whatever calls of [Check]
    come in between. *)
Theorem Check_repeatable f item σ r f1 σ1 items f2 σ2 :
  Filter.Check f item σ = Ok ((r, f1), σ1) →
  Filter_run (OpCheck <$> items) f1 σ1 = Ok (f2, σ2) →
  ∃ f3 σ3, Filter.Check f2 item σ2 = Ok ((r, f3), σ3).
Proof.
  intros HCheck Hrun.
  apply Check_twice in HCheck.
  apply Filter_run_Check_same in Hrun as [Hsame Hle].
  eapply Check_stable; eauto.
Qed.

(** C10 (the sub-filters are never empty).  A scalable filter has a
    sub-filter when [NewScalable] returns it and after every call of [Add],
    [Check], [Reset], [FillRatio] and [EstimatedFillRatio] that returns; so
    the read of the last sub-filter in [Add] and [EstimatedFillRatio] is
    within bounds. *)
Theorem sub_filters_nonempty n opt σ sbf σ1 calls sbf' σ' :
  NewScalable n opt σ = Ok (sbf, σ1) →
  Scalable_run calls sbf σ1 = Ok (sbf', σ') →
  ScalableFilter.bfs sbf' ≠ []
  ∧ (∃ last, index_int (ScalableFilter.bfs sbf')
               (Z.of_nat (length (ScalableFilter.bfs sbf')) - 1) = Ok last)
  ∧ ∃ x, ScalableFilter.EstimatedFillRatio sbf' = Ok x.
Proof.
  intros (_ & _ & _ & f & Hf)%NewScalable_Ok Hrun.
  assert (ScalableFilter.bfs sbf' ≠ []) as Hne.
  { eapply Scalable_call_nonempty; [| exact Hrun]. by rewrite Hf. }
  destruct (nonempty_last _ Hne) as [last Hlast]. split_and!; eauto.
  unfold ScalableFilter.EstimatedFillRatio. rewrite Hlast. eauto.
Qed.

End Claims.


(** * Further properties of the code *)

(** ** Bits set and bits not set *)

Lemma Test_Set_eq x j v :
  j < bitset.length x →
  bitset.Test (bitset.Set_ x j) v = (v =? j) || bitset.Test x v.
Proof.
  intros Hj. unfold bitset.Test, bitset.Set_. simpl.
  destruct (N.leb_spec (bitset.length x) j) as [|_]; [lia |].
  destruct (N.leb_spec (bitset.length x) v).
  - destruct (N.eqb_spec v j); [lia | reflexivity].
  - rewrite N.setbit_eqb. by rewrite (N.eqb_sym j v).
Qed.

Lemma length_Set_lt x j : j < bitset.length x → bitset.length (bitset.Set_ x j) = bitset.length x.
Proof. intros Hj. unfold bitset.Set_. simpl. destruct (N.leb_spec (bitset.length x) j); [lia | reflexivity]. Qed.

Lemma Set_Set_same x j : bitset.Set_ (bitset.Set_ x j) j = bitset.Set_ x j.
Proof.
  unfold bitset.Set_. simpl. f_equal.
  - destruct (N.leb_spec (bitset.length x) j);
      repeat match goal with |- context [?a <=? ?b] => destruct (N.leb_spec a b) end; lia.
  - apply N.bits_inj. intros i. rewrite !N.setbit_eqb. by destruct (j =? i).
Qed.

Lemma Set_Set_comm x i j :
  bitset.Set_ (bitset.Set_ x i) j = bitset.Set_ (bitset.Set_ x j) i.
Proof.
  unfold bitset.Set_. simpl. f_equal.
  - destruct (N.leb_spec (bitset.length x) i), (N.leb_spec (bitset.length x) j);
      repeat match goal with |- context [?a <=? ?b] => destruct (N.leb_spec a b) end; lia.
  - apply N.bits_inj. intros v. rewrite !N.setbit_eqb.
    by destruct (i =? v), (j =? v).
Qed.

Lemma index_of_lt D s i : s ≠ 0 → index_of D s i < s.
Proof. intros Hs. unfold index_of, bit_index. by apply N.mod_lt. Qed.

Lemma indices_index_of D k s i :
  (i < N.to_nat k)%nat → indices D k s !! i = Some (index_of D s i).
Proof. apply indices_lookup. Qed.

Lemma Check_loop_cleared vs (b : list bitset.BitSet) r :
  (∀ i x v, b !! i = Some x → bitset.Test x v = false) →
  Filter.Check_loop 0 vs b = Ok r → r = match vs with [] => true | _ => false end.
Proof.
  intros Hc. destruct vs as [|v vs]; simpl; [by intros [= <-] |].
  destruct (b !! 0%nat) as [x|] eqn:E; [| discriminate].
  rewrite (Hc _ _ _ E). by intros [= <-].
Qed.

(** ** What the partitions hold *)

Lemma holds_fresh f d :
  Filter.b f = makePartitions (Filter.k f) (Filter.s f) → holds f d [].
Proof.
  intros Hb. unfold holds. rewrite Hb. unfold makePartitions. split.
  - apply length_replicate.
  - intros i x [-> _]%lookup_replicate. split; [reflexivity |].
    intros v. rewrite Test_New. split; [discriminate |].
    intros (Y & HY & _). by apply elem_of_nil in HY.
Qed.

Lemma holds_bits_state f d keys D : holds f d keys → holds (bits_state f D) d keys.
Proof. intros Hf. exact Hf. Qed.

Lemma holds_Add_state f d keys Y :
  holds f d keys → bits_ready f (d Y) → holds (Add_state f (d Y)) d (keys ++ [Y]).
Proof.
  intros [Hlen Hf] (_ & _ & Hs). unfold holds. simpl. rewrite length_set_bits.
  split; [exact Hlen |]. intros i x' Hi.
  assert (i < length (Filter.b f))%nat as Hlt.
  { apply lookup_lt_Some in Hi. by rewrite length_set_bits in Hi. }
  destruct (lookup_lt_is_Some_2 _ _ Hlt) as [x Hx].
  rewrite (set_bits_lookup _ _ _ _ _ Hx) in Hi.
  rewrite decide_True, Nat.sub_0_r, indices_index_of in Hi by lia.
  injection Hi as <-. destruct (Hf _ _ Hx) as [Hsz Hbits].
  assert (Filter.s f ≠ 0) as Hs0 by (destruct Hs; [lia | trivial]).
  assert (index_of (d Y) (Filter.s f) i < bitset.length x) as Hin.
  { rewrite Hsz. by apply index_of_lt. }
  split; [by rewrite length_Set_lt |].
  intros v. rewrite Test_Set_eq by trivial. rewrite orb_true_iff, Hbits, N.eqb_eq.
  split.
  - intros [-> | (Z & HZ & <-)].
    + exists Y. split; [| reflexivity]. apply elem_of_app. right. by apply list_elem_of_singleton.
    + exists Z. split; [| reflexivity]. apply elem_of_app. by left.
  - intros (Z & [HZ | ->%list_elem_of_singleton]%elem_of_app & <-); eauto.
Qed.

Lemma hashes_with_digest σ f d l ho :
  hashes_with σ f d → Filter.h f = Some l → σ !! l = Some ho → hash.digest ho = d.
Proof.
  intros (ho' & Hat & <-) Hh Hl. rewrite Hh in Hat. simpl in Hat. congruence.
Qed.

Lemma holds_Add f d keys Y σ f' σ' :
  holds f d keys → hashes_with σ f d → Filter.Add f Y σ = Ok (f', σ') →
  holds f' d (keys ++ [Y]) ∧ hashes_with σ' f' d
  ∧ Filter.k f' = Filter.k f ∧ Filter.s f' = Filter.s f ∧ Filter.h f' = Filter.h f.
Proof.
  intros Hf Hd (l & ho & Hh & Hl & Hr & _ & -> & ->)%Add_Ok.
  pose proof (hashes_with_digest _ _ _ _ _ Hd Hh Hl) as E. rewrite E in *.
  split_and!; try reflexivity.
  - by apply holds_Add_state.
  - by eapply hashes_with_step.
Qed.

Lemma holds_Check_keeps f d keys X σ r f' σ' :
  holds f d keys → hashes_with σ f d → Filter.Check f X σ = Ok ((r, f'), σ') →
  holds f' d keys ∧ hashes_with σ' f' d
  ∧ Filter.k f' = Filter.k f ∧ Filter.s f' = Filter.s f ∧ Filter.h f' = Filter.h f.
Proof.
  intros Hf Hd (l & ho & Hh & Hl & Hr & _ & -> & ->)%Check_Ok.
  split_and!; try reflexivity.
  - exact Hf.
  - by eapply hashes_with_step.
Qed.

Lemma holds_run ops f d keys σ f' σ' :
  holds f d keys → hashes_with σ f d → Filter_run ops f σ = Ok (f', σ') →
  holds f' d (keys ++ added ops) ∧ hashes_with σ' f' d
  ∧ Filter.k f' = Filter.k f ∧ Filter.s f' = Filter.s f ∧ Filter.h f' = Filter.h f.
Proof.
  revert f keys σ. induction ops as [|[Y|Y] ops IH]; intros f keys σ Hf Hd Hrun; simpl in Hrun.
  - apply ret_Ok in Hrun as [-> ->]. unfold added. simpl. by rewrite app_nil_r.
  - apply bind_Ok in Hrun as (f1 & σ1 & Hadd & Hrun).
    destruct (holds_Add _ _ _ _ _ _ _ Hf Hd Hadd) as (Hf1 & Hd1 & Hk & Hs & Hh).
    destruct (IH _ _ _ Hf1 Hd1 Hrun) as (? & ? & ? & ? & ?).
    unfold added in *. simpl. rewrite <- app_assoc in *. simpl in *.
    split_and!; trivial; congruence.
  - apply bind_Ok in Hrun as ([r f1] & σ1 & Hchk & Hrun).
    destruct (holds_Check_keeps _ _ _ _ _ _ _ _ Hf Hd Hchk) as (Hf1 & Hd1 & Hk & Hs & Hh).
    destruct (IH _ _ _ Hf1 Hd1 Hrun) as (? & ? & ? & ? & ?).
    unfold added in *. simpl.
    split_and!; trivial; congruence.
Qed.

Lemma holds_Check f d keys X σ r f' σ' :
  holds f d keys → hashes_with σ f d → Filter.Check f X σ = Ok ((r, f'), σ') →
  r = true ↔ ∀ i, (i < N.to_nat (Filter.k f))%nat →
               ∃ Y, Y ∈ keys ∧ index_of (d Y) (Filter.s f) i = index_of (d X) (Filter.s f) i.
Proof.
  intros [Hlen Hf] Hd (l & ho & Hh & Hl & Hr & Hloop & -> & ->)%Check_Ok.
  pose proof (hashes_with_digest _ _ _ _ _ Hd Hh Hl) as E. rewrite E in *.
  transitivity (all_set 0 (indices (d X) (Filter.k f) (Filter.s f)) (Filter.b f)).
  { rewrite <- Check_loop_true, Hloop. split; congruence. }
  split.
  - intros Hall i Hi. destruct (Hall i _ (indices_index_of _ _ _ _ Hi)) as (x & Hx & Ht).
    simpl in Hx. by apply (Hf _ _ Hx).
  - intros Hkeys j v Hj.
    assert (j < N.to_nat (Filter.k f))%nat as Hlt.
    { apply lookup_lt_Some in Hj. by rewrite length_indices in Hj. }
    rewrite indices_index_of in Hj by trivial. injection Hj as <-.
    destruct (lookup_lt_is_Some_2 (Filter.b f) j) as [x Hx]; [lia |].
    exists x. split; [exact Hx |]. apply (Hf _ _ Hx). auto.
Qed.

Lemma Filter_run_hash ops f σ f' σ' X r f2 σ2 :
  Filter_run ops f σ = Ok (f', σ') → Filter.Check f' X σ' = Ok ((r, f2), σ2) →
  ∃ ho, hash_at σ (Filter.h f) = Some ho.
Proof.
  destruct ops as [|[Y|Y] ops]; simpl.
  - intros [-> ->]%ret_Ok (l & ho & Hh & Hl & _)%Check_Ok. exists ho. by rewrite Hh.
  - intros (f1 & σ1 & (l & ho & Hh & Hl & _)%Add_Ok & _)%bind_Ok _. exists ho. by rewrite Hh.
  - intros ([r1 f1] & σ1 & (l & ho & Hh & Hl & _)%Check_Ok & _)%bind_Ok _. exists ho. by rewrite Hh.
Qed.

Lemma run_holds f0 σ1 ops f σ :
  Filter.b f0 = makePartitions (Filter.k f0) (Filter.s f0) →
  Filter_run ops f0 σ1 = Ok (f, σ) →
  ∃ d, holds f d (added ops) ∧ Filter.k f = Filter.k f0 ∧ Filter.s f = Filter.s f0
       ∧ Filter.h f = Filter.h f0.
Proof.
  intros Hb Hrun. destruct ops as [|o ops].
  - apply ret_Ok in Hrun as [-> ->]. exists (λ _, []). split_and!; try reflexivity.
    by apply holds_fresh.
  - assert (∃ ho, hash_at σ1 (Filter.h f0) = Some ho) as [ho Hho].
    { destruct o as [Y|Y]; simpl in Hrun.
      + apply bind_Ok in Hrun as (? & ? & (l' & ho & Hh' & Hl' & _)%Add_Ok & _).
        exists ho. by rewrite Hh'.
      + apply bind_Ok in Hrun as ([? ?] & ? & (l' & ho & Hh' & Hl' & _)%Check_Ok & _).
        exists ho. by rewrite Hh'. }
    exists (hash.digest ho).
    assert (hashes_with σ1 f0 (hash.digest ho)) as Hd by (by exists ho).
    destruct (holds_run _ _ _ [] _ _ _ (holds_fresh f0 _ Hb) Hd Hrun) as (? & ? & ? & ? & ?).
    by split_and!.
Qed.

Lemma Check_cleared f X σ r f' σ' :
  cleared f → Filter.Check f X σ = Ok ((r, f'), σ') → r = true ↔ Filter.k f = 0.
Proof.
  intros Hc (l & ho & _ & _ & _ & Hloop & _)%Check_Ok.
  apply Check_loop_cleared in Hloop; [| exact Hc]. subst r.
  pose proof (length_indices (hash.digest ho X) (Filter.k f) (Filter.s f)) as Hlen.
  destruct (indices _ _ _); simpl in Hlen; split; trivial; try discriminate; lia.
Qed.

Lemma cleared_makePartitions f :
  Filter.b f = makePartitions (Filter.k f) (Filter.s f) → cleared f.
Proof.
  intros Hb i x v. rewrite Hb. unfold makePartitions.
  intros [-> _]%lookup_replicate. apply Test_New.
Qed.

Lemma Check_true_recorded f X σ f' σ' :
  Filter.Check f X σ = Ok ((true, f'), σ') →
  ∃ d, hashes_with σ f d ∧ recorded f (d X).
Proof.
  intros (l & ho & Hh & Hl & Hr & Hloop & _)%Check_Ok.
  exists (hash.digest ho). split.
  - exists ho. by rewrite Hh.
  - split; [exact Hr | by apply Check_loop_true].
Qed.

Lemma Filter_run_count ops f σ f' σ' :
  Filter_run ops f σ = Ok (f', σ') →
  Filter.c f' mod 2 ^ 64 = (Filter.c f + N.of_nat (length (added ops))) mod 2 ^ 64
  ∧ (Filter.c f < 2 ^ 64 → Filter.c f' < 2 ^ 64).
Proof.
  revert f σ. induction ops as [|[Y|Y] ops IH]; intros f σ Hrun; simpl in Hrun.
  - apply ret_Ok in Hrun as [-> ->]. change (added []) with (@nil (list byte)). simpl.
    by rewrite N.add_0_r.
  - apply bind_Ok in Hrun as (f1 & σ1 & (l & ho & _ & _ & _ & _ & -> & _)%Add_Ok & Hrun).
    apply IH in Hrun as [Hc Hlt]. simpl in Hc, Hlt.
    change (added (OpAdd Y :: ops)) with (Y :: added ops). split.
    + rewrite Hc. unfold u64. rewrite N.Div0.add_mod_idemp_l, length_cons.
      f_equal. lia.
    + intros _. apply Hlt. unfold u64. by apply N.mod_lt.
  - apply bind_Ok in Hrun as ([r f1] & σ1 & (l & ho & _ & _ & _ & _ & -> & _)%Check_Ok & Hrun).
    apply IH in Hrun as [Hc Hlt]. by change (added (OpCheck Y :: ops)) with (added ops).
Qed.

Section OneFilter.
Context `{!GoLib}.

Lemma New_Ok n opt σ f σ' :
  New n opt σ = Ok (f, σ') →
  n ≠ 0 ∧ f = New_state n opt (length σ) ∧ σ' = σ ++ [cityhash_obj].
Proof.
  intros Hnew. destruct (N.eq_dec n 0) as [-> | Hn].
  - by rewrite New_zero in Hnew.
  - rewrite New_eq in Hnew by trivial. by injection Hnew as <- <-.
Qed.

(** X1.  [bloom.go], [New], [Add], [Check]: on a filter made by [New] and
    used with [Add] and [Check], [Check] answers true for a key exactly when,
    in every one of the [k] partitions, the key's index is the index of some
    key that was added.  (With no key added the answer is false, unless
    [k = 0].) *)
Theorem Filter_Check_exact n opt σ0 f0 σ1 ops f σ X r f' σ' :
  New n opt σ0 = Ok (f0, σ1) →
  Filter_run ops f0 σ1 = Ok (f, σ) →
  Filter.Check f X σ = Ok ((r, f'), σ') →
  ∃ ho, hash_at σ1 (Filter.h f0) = Some ho
        ∧ (r = true ↔
           ∀ i, (i < N.to_nat (Filter.k f0))%nat →
             ∃ Y, Y ∈ added ops
                  ∧ index_of (hash.digest ho Y) (Filter.s f0) i
                    = index_of (hash.digest ho X) (Filter.s f0) i).
Proof.
  intros (_ & -> & ->)%New_Ok Hrun Hchk.
  destruct (Filter_run_hash _ _ _ _ _ _ _ _ _ Hrun Hchk) as [ho Hho].
  exists ho. split; [exact Hho |].
  assert (hashes_with (σ0 ++ [cityhash_obj]) (New_state n opt (length σ0)) (hash.digest ho))
    as Hd by (by exists ho).
  destruct (holds_run _ _ _ [] _ _ _
              (holds_fresh (New_state n opt (length σ0)) _ eq_refl) Hd Hrun)
    as (Hf & Hd' & Hk & Hs & _).
  rewrite <- Hk, <- Hs. exact (holds_Check _ _ _ _ _ _ _ _ Hf Hd' Hchk).
Qed.

(** X2.  [bloom.go], [Reset]: after [Reset] the filter has forgotten the keys
    added before; [Check] answers as on a new filter to which only the keys
    added since were added. *)
Theorem Reset_forgets n opt σ0 f0 σ1 ops f1 σ2 f2 σ3 ops' f σ X r f' σ' :
  New n opt σ0 = Ok (f0, σ1) →
  Filter_run ops f0 σ1 = Ok (f1, σ2) →
  Filter.Reset f1 σ2 = Ok (f2, σ3) →
  Filter_run ops' f2 σ3 = Ok (f, σ) →
  Filter.Check f X σ = Ok ((r, f'), σ') →
  ∃ ho, hash_at σ3 (Filter.h f0) = Some ho
        ∧ (r = true ↔
           ∀ i, (i < N.to_nat (Filter.k f0))%nat →
             ∃ Y, Y ∈ added ops'
                  ∧ index_of (hash.digest ho Y) (Filter.s f0) i
                    = index_of (hash.digest ho X) (Filter.s f0) i).
Proof.
  intros (_ & -> & ->)%New_Ok Hrun (l & ho0 & Hh & Hl & -> & ->)%Filter_Reset_Ok Hrun' Hchk.
  set (f0 := New_state n opt (length σ0)) in *.
  set (d := hash.digest ho0).
  destruct (run_holds f0 _ _ _ _ eq_refl Hrun) as (d0 & Hf1 & Hk & Hs & Hh1).
  set (f2 := Filter.with_b f1 (map bitset.ClearAll (Filter.b f1))) in *.
  assert (holds f2 d []) as Hf2.
  { destruct Hf1 as [Hlen Hf1]. split; simpl.
    - by rewrite length_map.
    - intros i x Hi. rewrite list_lookup_fmap in Hi.
      destruct (Filter.b f1 !! i) as [x0|] eqn:Ex; [| discriminate].
      injection Hi as <-. split; [apply (Hf1 _ _ Ex) |].
      intros v. rewrite Test_ClearAll. split; [discriminate |].
      intros (Y & HY & _). by apply elem_of_nil in HY. }
  assert (hashes_with (<[l := hash.mk (hash.digest ho0) []]> σ2) f2 d) as Hd2.
  { exists (hash.mk (hash.digest ho0) []). split; [| reflexivity].
    change (Filter.h f2) with (Filter.h f1). rewrite Hh. simpl.
    apply list_lookup_insert_eq. by apply lookup_lt_Some in Hl. }
  exists (hash.mk (hash.digest ho0) []). split.
  { rewrite <- Hh1, Hh. simpl. apply list_lookup_insert_eq. by apply lookup_lt_Some in Hl. }
  destruct (holds_run _ _ _ _ _ _ _ Hf2 Hd2 Hrun') as (Hf & Hd' & Hk' & Hs' & _).
  change (Filter.k f2) with (Filter.k f1) in Hk'.
  change (Filter.s f2) with (Filter.s f1) in Hs'.
  rewrite <- Hk, <- Hs, <- Hk', <- Hs'.
  exact (holds_Check _ _ _ _ _ _ _ _ Hf Hd' Hchk).
Qed.

(** X3.  [bloom.go], [Check] and [Add]: an answer of [Check] only ever goes
    from false to true.  Once [Check] has answered true for a key, be it an
    added key or a false positive, it answers true after any further calls of
    [Add] and [Check]. *)
Theorem positives_stay f X σ f1 σ1 ops f2 σ2 :
  Filter.Check f X σ = Ok ((true, f1), σ1) →
  Filter_run ops f1 σ1 = Ok (f2, σ2) →
  ∃ f3 σ3, Filter.Check f2 X σ2 = Ok ((true, f3), σ3).
Proof.
  intros Hchk Hrun. destruct (Check_true_recorded _ _ _ _ _ Hchk) as (d & Hd & Hrec).
  destruct (Check_keeps_recorded _ _ _ _ _ _ _ _ Hrec Hd Hchk) as [Hrec1 Hd1].
  destruct (Filter_run_keeps_recorded _ _ _ _ _ _ _ Hrec1 Hd1 Hrun) as [Hrec2 Hd2].
  by apply recorded_Check with d.
Qed.

(** X4.  [bloom.go], [Count]: on a filter made by [New], [Count] is the
    number of [Add] calls made, modulo [2^64]; [Check] does not count. *)
Theorem Filter_Count_adds n opt σ0 f0 σ1 ops f σ :
  New n opt σ0 = Ok (f0, σ1) →
  Filter_run ops f0 σ1 = Ok (f, σ) →
  Filter.Count f = N.of_nat (length (added ops)) mod 2 ^ 64.
Proof.
  intros (_ & -> & ->)%New_Ok Hrun. apply Filter_run_count in Hrun as [Hc Hlt].
  change (Filter.c (New_state n opt (length σ0))) with 0 in Hc, Hlt.
  rewrite N.add_0_l in Hc. unfold Filter.Count. rewrite <- Hc.
  symmetry. apply N.mod_small. apply Hlt. lia.
Qed.

End OneFilter.

(** ** Adding twice, adding in another order *)

Lemma set_bits_eq i vs (b : list bitset.BitSet) j :
  set_bits i vs b !! j
  = (λ x, if decide (i ≤ j)%nat
          then match vs !! (j - i)%nat with Some v => bitset.Set_ x v | None => x end
          else x) <$> b !! j.
Proof. unfold set_bits. apply list_lookup_imap. Qed.

Lemma set_bits_idem vs (b : list bitset.BitSet) :
  set_bits 0 vs (set_bits 0 vs b) = set_bits 0 vs b.
Proof.
  apply list_eq. intros j. rewrite !set_bits_eq.
  destruct (b !! j) as [x|]; [| reflexivity]. simpl. f_equal.
  rewrite Nat.sub_0_r. destruct (vs !! j); [| reflexivity]. apply Set_Set_same.
Qed.

Lemma set_bits_comm vs ws (b : list bitset.BitSet) :
  set_bits 0 vs (set_bits 0 ws b) = set_bits 0 ws (set_bits 0 vs b).
Proof.
  apply list_eq. intros j. rewrite !set_bits_eq.
  destruct (b !! j) as [x|]; [| reflexivity]. simpl. f_equal.
  rewrite Nat.sub_0_r. destruct (vs !! j), (ws !! j); try reflexivity. apply Set_Set_comm.
Qed.

Lemma bits_ready_Add_state f D D' :
  bits_ready f D → bits_ready f D' → bits_ready (Add_state f D) D'.
Proof. intros Hr Hr'. exact (bits_ready_bits_state f D D' Hr Hr'). Qed.

(** X5.  [bloom.go], [Add]: adding a key a second time changes nothing but
    the counter: the partitions, the scratch buffer and the hash object are
    as the first [Add] left them. *)
Theorem Add_again f X σ f1 σ1 :
  Filter.Add f X σ = Ok (f1, σ1) →
  Filter.Add f1 X σ1 = Ok (Filter.with_c f1 (u64 (Filter.c f1 + 1)), σ1).
Proof.
  intros (l & ho & Hh & Hl & Hr & Hb & -> & ->)%Add_Ok.
  pose proof (lookup_lt_Some _ _ _ Hl) as Hlt.
  apply Add_Ok. exists l, (hashed ho X). split_and!.
  - exact Hh.
  - by apply list_lookup_insert_eq.
  - by apply bits_ready_Add_state.
  - simpl. by rewrite length_set_bits.
  - simpl. unfold Add_state, Filter.with_c, Filter.with_b. simpl. f_equal.
    + symmetry. apply set_bits_idem.
    + symmetry. exact (f_equal Filter.bs (bits_state_idem f (hash.digest ho X))).
  - unfold hashed. simpl. by rewrite list_insert_insert_eq.
Qed.

(** X6.  [bloom.go], [Add]: the order of two [Add] calls does not matter for
    what the filter holds; either order returns, and the partitions and the
    counter come out the same. *)
Theorem Add_commutes f X Y σ f1 σ1 f2 σ2 :
  Filter.Add f X σ = Ok (f1, σ1) →
  Filter.Add f1 Y σ1 = Ok (f2, σ2) →
  ∃ g1 τ1 g2 τ2,
    Filter.Add f Y σ = Ok (g1, τ1) ∧ Filter.Add g1 X τ1 = Ok (g2, τ2)
    ∧ Filter.b g2 = Filter.b f2 ∧ Filter.Count g2 = Filter.Count f2.
Proof.
  intros (l & ho & Hh & Hl & Hr & Hb & -> & ->)%Add_Ok
         (l' & ho' & Hh' & Hl' & Hr' & Hb' & -> & ->)%Add_Ok.
  pose proof (lookup_lt_Some _ _ _ Hl) as Hlt.
  simpl in Hh'. rewrite Hh in Hh'. injection Hh' as <-.
  rewrite list_lookup_insert_eq in Hl' by trivial. injection Hl' as <-.
  change (hash.digest (hashed ho X)) with (hash.digest ho) in *.
  set (DX := hash.digest ho X) in *. set (DY := hash.digest ho Y) in *.
  assert (bits_ready f DY) as HrY.
  { destruct Hr as (? & ? & ?), Hr' as (? & _ & _). by split_and!. }
  exists (Add_state f DY), (<[l := hashed ho Y]> σ),
         (Add_state (Add_state f DY) DX),
         (<[l := hashed (hashed ho Y) X]> (<[l := hashed ho Y]> σ)).
  split_and!.
  - apply Add_Ok. exists l, ho. by split_and!.
  - apply Add_Ok. exists l, (hashed ho Y). split_and!; trivial.
    + by apply list_lookup_insert_eq.
    + by apply bits_ready_Add_state.
    + simpl. by rewrite length_set_bits.
  - simpl. apply set_bits_comm.
  - reflexivity.
Qed.

(** ** Sizes, and the panics of a filter without bits *)

Lemma bits_zero_size f X σ ho :
  hash_at σ (Filter.h f) = Some ho →
  (8 ≤ length (hash.digest ho X))%nat →
  (N.to_nat (Filter.k f) ≤ length (Filter.bs f))%nat →
  Filter.k f ≠ 0 → Filter.s f = 0 →
  Filter.bits f X σ = Panic divide_by_zero.
Proof.
  intros (l & Hh & Hl)%hash_at_Some Hlen Hk Hk0 Hs.
  pose proof (lookup_lt_Some _ _ _ Hl) as Hlt.
  unfold Filter.bits. rewrite Hh. unfold bind at 1 2 3.
  unfold hash_Reset, hash_Write, hash_Sum, bind at 1 2 3, deref, store, ret.
  rewrite Hl. rewrite list_lookup_insert_eq by trivial. simpl.
  rewrite list_insert_insert_eq, list_lookup_insert_eq by trivial. simpl.
  unfold bind, lift, slice.
  rewrite !bool_decide_eq_true_2 by (simpl; lia).
  rewrite BigEndian_Uint32_take4 by (rewrite length_drop; lia).
  rewrite BigEndian_Uint32_take4 by (rewrite length_drop; simpl; lia).
  rewrite Hs, bits_loop_zero by lia. reflexivity.
Qed.

(** X7.  [bloom.go], [bits]: a filter whose partition size [s] is 0 while
    [k] is not panics in [Add] and in [Check] with an integer division by
    zero, for every key. *)
Theorem zero_size_panics f X σ ho :
  hash_at σ (Filter.h f) = Some ho →
  (8 ≤ length (hash.digest ho X))%nat →
  (N.to_nat (Filter.k f) ≤ length (Filter.bs f))%nat →
  Filter.k f ≠ 0 → Filter.s f = 0 →
  Filter.Add f X σ = Panic divide_by_zero ∧ Filter.Check f X σ = Panic divide_by_zero.
Proof.
  intros Hho Hlen Hk Hk0 Hs.
  pose proof (bits_zero_size _ _ _ _ Hho Hlen Hk Hk0 Hs) as Hbits.
  unfold Filter.Add, Filter.Check, bind. by rewrite Hbits.
Qed.

Section Sizes.
Context `{!GoLib}.


(** X9.  [partitioned/partitioned.go], [New], [Reset], [Check]: a filter
    just made by [New] or just [Reset] is empty: [Check] answers false for
    every key, unless the filter has no partition at all ([k = 0]), in which
    case it answers true for every key. *)
Theorem partitioned_starts_empty n bf σ bf1 σ1 X r bf2 σ2 :
  partitioned.New n σ = Ok (bf1, σ1) ∨ partitioned.Reset bf σ = Ok (bf1, σ1) →
  partitioned.Check bf1 X σ1 = Ok ((r, bf2), σ2) →
  r = true ↔ Filter.k bf1 = 0.
Proof.
  intros Hmade Hchk. apply (Check_cleared bf1 X σ1 r bf2 σ2); [| exact Hchk].
  destruct Hmade as [Hnew | Hreset].
  - unfold partitioned.New in Hnew. inv_M. subst. by apply cleared_makePartitions.
  - apply partitioned_Reset_effects in Hreset as (_ & _ & _ & _ & _ & _ & Hc & _).
    exact Hc.
Qed.


End Sizes.

(** ** More on the scalable filter *)

Lemma Forall2_filter_same_refl fs : Forall2 filter_same fs fs.
Proof. induction fs; constructor; auto using filter_same_refl. Qed.

Lemma Forall2_filter_same_insert fs i g g' :
  fs !! i = Some g → filter_same g g' → Forall2 filter_same fs (<[i := g']> fs).
Proof.
  intros Hi Hle. rewrite <- (list_insert_id fs i g Hi) at 1.
  apply Forall2_insert; auto using Forall2_filter_same_refl.
Qed.

Lemma Forall2_filter_same_trans fs1 fs2 fs3 :
  Forall2 filter_same fs1 fs2 → Forall2 filter_same fs2 fs3 → Forall2 filter_same fs1 fs3.
Proof. apply Forall2_trans. intros ???. apply filter_same_trans. Qed.

Lemma Scalable_Check_loop_same cnt fs item σ r fs' σ' :
  ScalableFilter.Check_loop cnt fs item σ = Ok ((r, fs'), σ') →
  Forall2 filter_same fs fs' ∧ length σ' = length σ.
Proof.
  revert fs σ. induction cnt as [|i IH]; intros fs σ H; simpl in H.
  - apply ret_Ok in H as [[= -> ->] ->]. auto using Forall2_filter_same_refl.
  - inv_M. unfold index in *.
    destruct (fs !! i) as [g|] eqn:Hi; [| discriminate].
    match goal with H : Ok _ = Ok _ |- _ => injection H as <- end. subst.
    match goal with H : Filter.Check _ _ _ = Ok _ |- _ =>
      pose proof (Check_same _ _ _ _ _ _ H) as [Hsame _];
      apply Check_Ok in H as (l & ho & _ & _ & _ & _ & _ & ->) end.
    pose proof (Forall2_filter_same_insert _ _ _ _ Hi Hsame) as Hfs.
    match goal with H : (if ?b then _ else _) _ = Ok _ |- _ => destruct b end.
    + apply ret_Ok in H as [[= -> ->] ->]. by rewrite length_insert.
    + apply IH in H as (Hfs' & Hlen). rewrite length_insert in Hlen.
      split; eauto using Forall2_filter_same_trans.
Qed.

Lemma Scalable_Check_Ok `{!GoLib} sbf item σ r sbf' σ' :
  ScalableFilter.Check sbf item σ = Ok ((r, sbf'), σ') →
  ∃ fs, ScalableFilter.Check_loop (length (ScalableFilter.bfs sbf)) (ScalableFilter.bfs sbf)
          item σ = Ok ((r, fs), σ')
        ∧ sbf' = ScalableFilter.with_bfs sbf fs.
Proof.
  unfold ScalableFilter.Check. intros Hchk. inv_M.
  match goal with H : (_, _) = (_, _) |- _ => injection H as -> -> end.
  subst. eauto.
Qed.

Lemma sum_counts_snoc fs f : sum_counts (fs ++ [f]) = sum_counts fs + Filter.c f.
Proof. unfold sum_counts. induction fs as [|g fs IH]; simpl; [lia |]. rewrite IH. lia. Qed.

Lemma sum_counts_same fs fs' : Forall2 filter_same fs fs' → sum_counts fs' = sum_counts fs.
Proof.
  induction 1 as [|f f' fs fs' (_ & _ & _ & _ & Hc & _) _ IH]; [reflexivity |].
  unfold sum_counts in *. simpl. by rewrite IH, Hc.
Qed.

Lemma adds_since_reset_mod calls a b :
  a mod 2 ^ 64 = b mod 2 ^ 64 →
  adds_since_reset calls a mod 2 ^ 64 = adds_since_reset calls b mod 2 ^ 64.
Proof.
  revert a b. induction calls as [|[Y|Y| | |] calls IH]; intros a b Hab; simpl; auto.
  apply IH. by rewrite <- (N.Div0.add_mod_idemp_l a), Hab, N.Div0.add_mod_idemp_l.
Qed.

Lemma u64_mod x : u64 x mod 2 ^ 64 = x mod 2 ^ 64.
Proof. unfold u64. apply N.Div0.mod_mod. Qed.

Lemma u64_lt x : u64 x < 2 ^ 64.
Proof. unfold u64. by apply N.mod_lt. Qed.

Lemma keeps_hash_apply rest ps :
  Forall keeps_hash rest → params.h (apply_options rest ps) = params.h ps.
Proof.
  intros Hrest. revert ps. induction Hrest as [|o rest Ho _ IH]; intros ps; [reflexivity |].
  unfold apply_options in *. simpl. by rewrite IH, Ho.
Qed.

Section ScalableCount.
Context `{!GoLib}.

Lemma addBloomFilter_inv sbf σ sbf' σ' :
  ScalableFilter.addBloomFilter sbf σ = Ok (sbf', σ') →
  ScalableFilter.n sbf ≠ 0
  ∧ sbf' = ScalableFilter.with_bfs sbf
             (ScalableFilter.bfs sbf
              ++ [New_state (ScalableFilter.n sbf)
                    (ScalableFilter.opt sbf ++ [WithErrorRate (tightened sbf)]) (length σ)])
  ∧ σ' = σ ++ [cityhash_obj].
Proof.
  intros Hadd. destruct (N.eq_dec (ScalableFilter.n sbf) 0) as [E | Hn].
  - unfold ScalableFilter.addBloomFilter, bind in Hadd. by rewrite E, New_zero in Hadd.
  - rewrite addBloomFilter_eq in Hadd by trivial. by injection Hadd as <- <-.
Qed.

Lemma starts_single n opt sbf σ sbf1 σ1 :
  NewScalable n opt σ = Ok (sbf1, σ1) ∨ ScalableFilter.Reset sbf σ = Ok (sbf1, σ1) →
  ∃ sbf0 σ0, ScalableFilter.bfs sbf0 = [] ∧ ScalableFilter.c sbf0 = 0
             ∧ ScalableFilter.addBloomFilter sbf0 σ0 = Ok (sbf1, σ1).
Proof.
  intros [Hnew | Hreset].
  - unfold NewScalable in Hnew. destruct (n =? 0); [discriminate |]. inv_M. subst.
    eexists _, _. split_and!; [| | eassumption]; reflexivity.
  - unfold ScalableFilter.Reset in Hreset.
    eexists _, _. split_and!; [| | eassumption]; reflexivity.
Qed.

(** X11.  [scalable.go], [NewScalable], [Reset], [Check]: a scalable filter
    just made or just [Reset] has one sub-filter and is empty: [Check]
    answers false for every key (unless that sub-filter has [k = 0], when it
    answers true for every key). *)
Theorem Scalable_starts_empty n opt sbf σ sbf1 σ1 X r sbf2 σ2 :
  NewScalable n opt σ = Ok (sbf1, σ1) ∨ ScalableFilter.Reset sbf σ = Ok (sbf1, σ1) →
  ScalableFilter.Check sbf1 X σ1 = Ok ((r, sbf2), σ2) →
  ∃ f, ScalableFilter.bfs sbf1 = [f] ∧ (r = true ↔ Filter.k f = 0).
Proof.
  intros (sbf0 & σ0 & Hnil & _ & (_ & -> & ->)%addBloomFilter_inv)%starts_single Hchk.
  rewrite Hnil in *. simpl in *. eexists. split; [reflexivity |].
  apply Scalable_Check_Ok in Hchk as (fs & Hloop & _). simpl in Hloop.
  apply bind_Ok in Hloop as (f & σ3 & [[= <-] ->]%lift_Ok & Hloop).
  apply bind_Ok in Hloop as ([r1 f1] & σ4 & Hchk & Hloop).
  assert (r = r1) as ->.
  { destruct r1; apply ret_Ok in Hloop as [[= -> _] _]; reflexivity. }
  refine (Check_cleared _ _ _ _ _ _ _ Hchk). by apply cleared_makePartitions.
Qed.

Lemma Scalable_run_count calls sbf σ sbf' σ' :
  Scalable_run calls sbf σ = Ok (sbf', σ') →
  ScalableFilter.c sbf' mod 2 ^ 64
  = adds_since_reset calls (ScalableFilter.c sbf) mod 2 ^ 64
  ∧ (ScalableFilter.c sbf < 2 ^ 64 → ScalableFilter.c sbf' < 2 ^ 64).
Proof.
  revert sbf σ. induction calls as [|call calls IH]; intros sbf σ Hrun.
  - apply ret_Ok in Hrun as [-> ->]. auto.
  - destruct call as [item|item| | |]; simpl in Hrun;
      apply bind_Ok in Hrun as (x & σ1 & Hcall & Hrun).
    + apply IH in Hrun as [Hc Hlt]. simpl.
      assert (ScalableFilter.c x = u64 (ScalableFilter.c sbf + 1)) as E.
      { apply Scalable_Add_Ok in Hcall
          as (fs & last & _ & [(_ & _ & f & _ & ->)|(_ & f & _ & ->)]); reflexivity. }
      rewrite E in *. split.
      * rewrite Hc. apply adds_since_reset_mod, u64_mod.
      * intros _. apply Hlt, u64_lt.
    + destruct x as [r sbf1]. apply IH in Hrun as [Hc Hlt].
      apply Scalable_Check_Ok in Hcall as (fs & _ & ->). auto.
    + apply IH in Hrun as [Hc Hlt].
      apply Scalable_Reset_Ok in Hcall as (E & _). rewrite E in *. simpl. split; [exact Hc |].
      intros _. apply Hlt. lia.
    + apply lift_Ok in Hcall as [_ ->]. apply IH in Hrun. exact Hrun.
    + apply lift_Ok in Hcall as [_ ->]. apply IH in Hrun. exact Hrun.
Qed.

(** X12.  [scalable.go], [Count], [Add], [Reset]: on a scalable filter made
    by [NewScalable], [Count] is the number of [Add] calls since the last
    [Reset] (or since the filter was made), modulo [2^64]. *)
Theorem Scalable_Count_adds n opt σ0 sbf0 σ1 calls sbf σ :
  NewScalable n opt σ0 = Ok (sbf0, σ1) →
  Scalable_run calls sbf0 σ1 = Ok (sbf, σ) →
  ScalableFilter.Count sbf = adds_since_reset calls 0 mod 2 ^ 64.
Proof.
  intros (_ & _ & Hc0 & _)%NewScalable_Ok [Hc Hlt]%Scalable_run_count.
  rewrite Hc0 in *. unfold ScalableFilter.Count. rewrite <- Hc.
  symmetry. apply N.mod_small, Hlt. lia.
Qed.

End ScalableCount.

Lemma keeps_hash_WithErrorRate e : keeps_hash (WithErrorRate e).
Proof. intros ps. reflexivity. Qed.


Section SubFilters.
Context `{!GoLib}.

Lemma Scalable_Add_shape sbf item σ sbf' σ' :
  ScalableFilter.Add sbf item σ = Ok (sbf', σ') →
  ∃ fs last tail g D,
    ScalableFilter.bfs sbf = fs ++ [last]
    ∧ sbf' = ScalableFilter.with_c
               (ScalableFilter.with_bfs sbf (fs ++ tail ++ [Add_state g D]))
               (u64 (ScalableFilter.c sbf + 1))
    ∧ ((tail = [] ∧ g = last)
       ∨ (tail = [last]
          ∧ g = New_state (ScalableFilter.n sbf)
                  (ScalableFilter.opt sbf ++ [WithErrorRate (tightened sbf)]) (length σ))).
Proof.
  intros (fs & last & Hbfs & [(_ & _ & f & Hadd & ->)|(_ & f & Hadd & ->)])%Scalable_Add_Ok;
    apply Add_Ok in Hadd as (l & ho & _ & _ & _ & _ & -> & _).
  - eexists fs, last, [last], _, _. split_and!; [exact Hbfs | reflexivity |]. right. eauto.
  - eexists fs, last, [], _, _. split_and!; [exact Hbfs | reflexivity |]. left. eauto.
Qed.

(** X13.  [scalable.go], [Check]: [Check] changes nothing that matters.  The
    sub-filters are the same in number, each with its partitions, counter,
    [k], [s] and hash as before (only scratch buffers are written), and the
    count and the parameters of the scalable filter are as before. *)
Theorem Scalable_Check_read_only sbf X σ r sbf' σ' :
  ScalableFilter.Check sbf X σ = Ok ((r, sbf'), σ') →
  Forall2 filter_same (ScalableFilter.bfs sbf) (ScalableFilter.bfs sbf')
  ∧ ScalableFilter.Count sbf' = ScalableFilter.Count sbf
  ∧ (ScalableFilter.n sbf', ScalableFilter.e sbf', ScalableFilter.p sbf',
     ScalableFilter.r sbf', ScalableFilter.h sbf')
    = (ScalableFilter.n sbf, ScalableFilter.e sbf, ScalableFilter.p sbf,
       ScalableFilter.r sbf, ScalableFilter.h sbf)
  ∧ length σ' = length σ.
Proof.
  intros (fs & [Hfs Hlen]%Scalable_Check_loop_same & ->)%Scalable_Check_Ok.
  by split_and!.
Qed.


Lemma Scalable_run_shares l calls sbf σ sbf' σ' :
  (∀ ps, params.h (apply_options (ScalableFilter.opt sbf) ps) = Some l) →
  Forall (λ f, Filter.h f = Some l) (ScalableFilter.bfs sbf) →
  Scalable_run calls sbf σ = Ok (sbf', σ') →
  Forall (λ f, Filter.h f = Some l) (ScalableFilter.bfs sbf').
Proof.
  assert (∀ sbf e l', (∀ ps, params.h (apply_options (ScalableFilter.opt sbf) ps) = Some l) →
            Filter.h (New_state (ScalableFilter.n sbf)
                        (ScalableFilter.opt sbf ++ [WithErrorRate e]) l') = Some l) as Hnew.
  { intros s0 e l' Ho. unfold New_state, New_params. simpl.
    rewrite apply_options_app. simpl. apply Ho. }
  revert sbf σ. induction calls as [|call calls IH]; intros sbf σ Hopt Hall Hrun.
  - by apply ret_Ok in Hrun as [-> ->].
  - destruct call as [item|item| | |]; simpl in Hrun;
      apply bind_Ok in Hrun as (x & σ1 & Hcall & Hrun).
    + apply Scalable_Add_shape in Hcall as (fs & last & tail & g & D & Hbfs & -> & Hcase).
      apply IH in Hrun; [exact Hrun | exact Hopt |]. simpl.
      rewrite Hbfs in Hall. apply Forall_app in Hall as [Hfs Hlast].
      apply Forall_app. split; [exact Hfs |].
      destruct Hcase as [[-> ->] | [-> ->]]; simpl.
      * apply Forall_singleton. exact (Forall_inv Hlast).
      * apply Forall_cons. split; [exact (Forall_inv Hlast) |].
        apply Forall_singleton. by apply Hnew.
    + destruct x as [r sbf1].
      apply Scalable_Check_Ok in Hcall as (fs & [Hfs _]%Scalable_Check_loop_same & ->).
      apply IH in Hrun; [exact Hrun | exact Hopt |]. simpl.
      apply Forall_lookup. intros j f' Hf'.
      destruct (Forall2_lookup_r _ _ _ _ _ Hfs Hf') as (f & Hf & (Hh & _)).
      rewrite Hh. by apply (Forall_lookup_1 _ _ _ _ Hall Hf).
    + apply addBloomFilter_inv in Hcall as (_ & -> & _).
      apply IH in Hrun; [exact Hrun | exact Hopt |]. simpl.
      apply Forall_singleton. by apply (Hnew (ScalableFilter.with_c (ScalableFilter.with_bfs sbf []) 0)).
    + apply lift_Ok in Hcall as [_ ->]. eauto.
    + apply lift_Ok in Hcall as [_ ->]. eauto.
Qed.

(** X15.  [option.go], [WithHash]; [scalable.go], [addBloomFilter]: when a
    scalable filter is made with [WithHash(h)], [h] not nil, and the options
    after it leave the hash alone, every sub-filter it ever has, also after
    a [Reset], uses that one hash object [h]. *)
Theorem sub_filters_share_hash l σ0 o σ0' n before rest σ1 sbf0 σ2 calls sbf σ :
  WithHash (Some l) σ0 = Ok (o, σ0') →
  Forall keeps_hash rest →
  NewScalable n (before ++ o :: rest) σ1 = Ok (sbf0, σ2) →
  Scalable_run calls sbf0 σ2 = Ok (sbf, σ) →
  Forall (λ f, Filter.h f = Some l) (ScalableFilter.bfs sbf).
Proof.
  intros Ho Hrest Hnew Hrun. unfold WithHash in Ho. inv_M. subst.
  assert (∀ ps, params.h (apply_options
                            (before ++ (λ ps, params.mk (Some l) (params.e ps) (params.p ps))
                                       :: rest) ps) = Some l) as Hopt.
  { intros ps. rewrite apply_options_app.
    change (apply_options (?o :: rest) ?q) with (apply_options rest (o q)).
    by rewrite keeps_hash_apply. }
  unfold NewScalable in Hnew. destruct (n =? 0); [discriminate |]. inv_M. subst.
  match goal with H : ScalableFilter.addBloomFilter _ _ = Ok _ |- _ =>
    apply addBloomFilter_inv in H as (_ & -> & ->) end.
  refine (Scalable_run_shares l _ _ _ _ _ _ _ Hrun); [exact Hopt |].
  simpl. apply Forall_singleton. unfold New_state, New_params. simpl.
  rewrite apply_options_app. simpl. apply Hopt.
Qed.

Lemma Scalable_run_sum calls sbf σ sbf' σ' :
  ScalableFilter.c sbf mod 2 ^ 64 = sum_counts (ScalableFilter.bfs sbf) mod 2 ^ 64 →
  Scalable_run calls sbf σ = Ok (sbf', σ') →
  ScalableFilter.c sbf' mod 2 ^ 64 = sum_counts (ScalableFilter.bfs sbf') mod 2 ^ 64.
Proof.
  revert sbf σ. induction calls as [|call calls IH]; intros sbf σ Hsum Hrun.
  - by apply ret_Ok in Hrun as [-> ->].
  - destruct call as [item|item| | |]; simpl in Hrun;
      apply bind_Ok in Hrun as (x & σ1 & Hcall & Hrun).
    + apply Scalable_Add_shape in Hcall as (fs & last & tail & g & D & Hbfs & -> & Hcase).
      apply IH in Hrun; [exact Hrun |]. simpl.
      rewrite Hbfs, sum_counts_snoc in Hsum.
      rewrite app_assoc, sum_counts_snoc. simpl.
      rewrite u64_mod.
      rewrite <- (N.Div0.add_mod_idemp_r (sum_counts (fs ++ tail))), u64_mod,
        N.Div0.add_mod_idemp_r.
      rewrite <- (N.Div0.add_mod_idemp_l (ScalableFilter.c sbf)), Hsum,
        N.Div0.add_mod_idemp_l.
      destruct Hcase as [[-> ->] | [-> ->]].
      * rewrite app_nil_r. f_equal; lia.
      * rewrite sum_counts_snoc. simpl. f_equal; lia.
    + destruct x as [r sbf1].
      apply Scalable_Check_Ok in Hcall as (fs & [Hfs _]%Scalable_Check_loop_same & ->).
      apply IH in Hrun; [exact Hrun |]. simpl. by rewrite (sum_counts_same _ _ Hfs).
    + apply addBloomFilter_inv in Hcall as (_ & -> & _).
      apply IH in Hrun; [exact Hrun |]. reflexivity.
    + apply lift_Ok in Hcall as [_ ->]. eauto.
    + apply lift_Ok in Hcall as [_ ->]. eauto.
Qed.

(** X16.  [scalable.go], [Add], [Count]; [bloom.go], [Add], [Count]: the
    count of a scalable filter made by [NewScalable] is the sum of the counts
    of its sub-filters, modulo [2^64]. *)
Theorem Scalable_Count_sum n opt σ0 sbf0 σ1 calls sbf σ :
  NewScalable n opt σ0 = Ok (sbf0, σ1) →
  Scalable_run calls sbf0 σ1 = Ok (sbf, σ) →
  ScalableFilter.Count sbf
  = foldr (λ f acc, Filter.Count f + acc) 0 (ScalableFilter.bfs sbf) mod 2 ^ 64.
Proof.
  intros Hnew Hrun.
  destruct (starts_single n opt sbf0 σ0 sbf0 σ1 (or_introl Hnew))
    as (s0 & τ & Hnil & Hc0 & (_ & E & _)%addBloomFilter_inv).
  pose proof (Scalable_run_count _ _ _ _ _ Hrun) as [_ Hlt].
  apply Scalable_run_sum in Hrun.
  - change (foldr _ 0 ?fs) with (sum_counts fs). rewrite <- Hrun.
    symmetry. apply N.mod_small, Hlt. rewrite E. simpl. rewrite Hc0. lia.
  - rewrite E. simpl. rewrite Hnil, Hc0. reflexivity.
Qed.

End SubFilters.

Lemma sub_filter_has_hashed σ l ho Y f X :
  σ !! l = Some ho →
  sub_filter_has (<[l := hashed ho Y]> σ) f X ↔ sub_filter_has σ f X.
Proof.
  intros Hl. pose proof (lookup_lt_Some _ _ _ Hl) as Hlt.
  unfold sub_filter_has. destruct (Filter.h f) as [l'|]; simpl.
  - destruct (decide (l' = l)) as [-> | Hne].
    + rewrite list_lookup_insert_eq by trivial. rewrite Hl. split.
      * intros (? & [= <-] & Hall). eauto.
      * intros (? & [= <-] & Hall). eexists. split; [reflexivity | exact Hall].
    + by rewrite list_lookup_insert_ne by congruence.
  - reflexivity.
Qed.

Lemma sub_filter_has_bits_state σ f D X :
  sub_filter_has σ (bits_state f D) X ↔ sub_filter_has σ f X.
Proof. reflexivity. Qed.

Lemma Scalable_Check_loop_exact cnt fs X σ r fs' σ' :
  ScalableFilter.Check_loop cnt fs X σ = Ok ((r, fs'), σ') →
  r = true ↔ ∃ j f, (j < cnt)%nat ∧ fs !! j = Some f ∧ sub_filter_has σ f X.
Proof.
  revert fs σ. induction cnt as [|i IH]; intros fs σ Hloop; simpl in Hloop.
  - apply ret_Ok in Hloop as [[= -> ->] ->]. split; [discriminate |].
    intros (j & _ & Hj & _). lia.
  - apply bind_Ok in Hloop as (f & σ0 & [Hf ->]%lift_Ok & Hloop).
    unfold index in Hf. destruct (fs !! i) as [f0|] eqn:Hi; [| discriminate].
    injection Hf as ->.
    apply bind_Ok in Hloop as ([r1 f1] & σ1 & Hchk & Hloop).
    apply Check_Ok in Hchk as (l & ho & Hh & Hl & Hr & Hin & -> & ->).
    destruct r1.
    + apply ret_Ok in Hloop as [[= -> ->] ->]. split; [| reflexivity]. intros _.
      exists i, f. split_and!; [lia | exact Hi |].
      exists ho. rewrite Hh. split; [exact Hl |]. by apply Check_loop_true.
    + apply IH in Hloop. rewrite Hloop. split.
      * intros (j & g & Hj & Hg & Hhas). rewrite list_lookup_insert_ne in Hg by lia.
        apply sub_filter_has_hashed in Hhas; [| exact Hl]. exists j, g. split_and!; (lia || trivial).
      * intros (j & g & Hj & Hg & Hhas). destruct (decide (j = i)) as [-> | Hne].
        -- rewrite Hi in Hg. injection Hg as <-. destruct Hhas as (ho' & Hat & Hall).
           rewrite Hh in Hat. simpl in Hat. rewrite Hl in Hat. injection Hat as <-.
           apply Check_loop_true in Hall. congruence.
        -- exists j, g. split_and!; [lia | by rewrite list_lookup_insert_ne by lia |].
           by apply sub_filter_has_hashed.
Qed.

Lemma Scalable_Check_loop_Forall (P : Filter.t → Prop) cnt fs X σ r fs' σ' :
  (∀ f D, P f → P (bits_state f D)) → Forall P fs →
  ScalableFilter.Check_loop cnt fs X σ = Ok ((r, fs'), σ') → Forall P fs'.
Proof.
  intros HP. revert fs σ. induction cnt as [|i IH]; intros fs σ Hall Hloop; simpl in Hloop.
  - by apply ret_Ok in Hloop as [[= _ ->] _].
  - apply bind_Ok in Hloop as (f & σ3 & [Hf ->]%lift_Ok & Hloop).
    unfold index in Hf. destruct (fs !! i) as [f0|] eqn:Hi; [| discriminate].
    injection Hf as ->.
    apply bind_Ok in Hloop as ([r1 f1] & σ4 & Hchk & Hloop).
    apply Check_Ok in Hchk as (l & ho & _ & _ & _ & _ & -> & _).
    assert (Forall P (<[i := bits_state f (hash.digest ho X)]> fs)) as Hall'.
    { apply Forall_insert; [exact Hall |]. apply HP. exact (Forall_lookup_1 _ _ _ _ Hall Hi). }
    destruct r1.
    + by apply ret_Ok in Hloop as [[= _ ->] _].
    + eauto.
Qed.

Section ScalableCheck.
Context `{!GoLib}.

(** X17.  [scalable.go], [Check]: when [Check] returns, its answer is true
    exactly when some sub-filter has every bit of the key set (each
    sub-filter hashing with its own hash object and its own [k] and [s]). *)
Theorem Scalable_Check_exact sbf X σ r sbf' σ' :
  ScalableFilter.Check sbf X σ = Ok ((r, sbf'), σ') →
  r = true ↔ ∃ f, f ∈ ScalableFilter.bfs sbf ∧ sub_filter_has σ f X.
Proof.
  intros (fs & Hloop%Scalable_Check_loop_exact & _)%Scalable_Check_Ok. rewrite Hloop. split.
  - intros (j & f & _ & Hf & Hhas). exists f. split; [| exact Hhas].
    by apply list_elem_of_lookup_2 in Hf.
  - intros (f & [j Hj]%list_elem_of_lookup_1 & Hhas). exists j, f. split_and!; trivial.
    by apply lookup_lt_Some in Hj.
Qed.

(** X18.  [scalable.go], [addBloomFilter]; [bloom.go], [New]: every
    sub-filter of a scalable filter made by [NewScalable] is a filter for
    the capacity [n] of the scalable filter: its [k], [m] and [s] are those
    computed from [n] and its own [e] and [p], and it has [k] partitions. *)
Theorem sub_filters_sized n opt σ0 sbf0 σ1 calls sbf σ :
  NewScalable n opt σ0 = Ok (sbf0, σ1) →
  Scalable_run calls sbf0 σ1 = Ok (sbf, σ) →
  ScalableFilter.n sbf = n
  ∧ Forall (λ f, Filter.n f = n ∧ Filter.k f = k (Filter.e f)
                 ∧ Filter.m f = m n (Filter.p f) (Filter.e f)
                 ∧ Filter.s f = s (Filter.m f) (Filter.k f)
                 ∧ length (Filter.b f) = N.to_nat (Filter.k f))
      (ScalableFilter.bfs sbf).
Proof.
  set (P := λ f, Filter.n f = n ∧ Filter.k f = k (Filter.e f)
                 ∧ Filter.m f = m n (Filter.p f) (Filter.e f)
                 ∧ Filter.s f = s (Filter.m f) (Filter.k f)
                 ∧ length (Filter.b f) = N.to_nat (Filter.k f)).
  assert (∀ opt l, P (New_state n opt l)) as Hnew.
  { intros o l. unfold P. split_and!; try reflexivity.
    simpl. unfold makePartitions. apply length_replicate. }
  assert (∀ f D, P f → P (Add_state f D)) as Hadd.
  { intros f D (? & ? & ? & ? & ?). unfold P. simpl. rewrite length_set_bits. by split_and!. }
  assert (∀ f D, P f → P (bits_state f D)) as Hbits.
  { intros f D Hf. exact Hf. }
  intros Hmade Hrun.
  destruct (starts_single n opt sbf0 σ0 sbf0 σ1 (or_introl Hmade))
    as (s0 & τ & Hnil & _ & (_ & E & _)%addBloomFilter_inv).
  apply NewScalable_Ok in Hmade as (_ & Hn & _).
  assert (Forall P (ScalableFilter.bfs sbf0)) as Hall.
  { rewrite E. simpl. rewrite Hnil. simpl. apply Forall_singleton.
    rewrite E in Hn. simpl in Hn. rewrite Hn. apply Hnew. }
  clear E Hnil s0 τ. revert sbf0 σ1 Hn Hall Hrun.
  induction calls as [|call calls IH]; intros sbf0 σ1 Hn Hall Hrun.
  - by apply ret_Ok in Hrun as [-> ->].
  - destruct call as [item|item| | |]; simpl in Hrun;
      apply bind_Ok in Hrun as (x & σ2 & Hcall & Hrun).
    + apply Scalable_Add_shape in Hcall as (fs & last & tail & g & D & Hbfs & -> & Hcase).
      apply IH in Hrun; [exact Hrun | exact Hn |]. simpl.
      rewrite Hbfs in Hall. apply Forall_app in Hall as [Hfs Hlast].
      apply Forall_app. split; [exact Hfs |].
      destruct Hcase as [[-> ->] | [-> ->]]; simpl.
      * apply Forall_singleton, Hadd. exact (Forall_inv Hlast).
      * apply Forall_cons. split; [exact (Forall_inv Hlast) |].
        apply Forall_singleton, Hadd. rewrite Hn. apply Hnew.
    + destruct x as [r sbf1].
      apply Scalable_Check_Ok in Hcall as (fs & Hloop & ->).
      apply IH in Hrun; [exact Hrun | exact Hn |]. simpl.
      exact (Scalable_Check_loop_Forall P _ _ _ _ _ _ _ Hbits Hall Hloop).
    + apply addBloomFilter_inv in Hcall as (_ & -> & _).
      apply IH in Hrun; [exact Hrun | exact Hn |]. simpl.
      apply Forall_singleton. rewrite Hn. apply Hnew.
    + apply lift_Ok in Hcall as [_ ->]. eauto.
    + apply lift_Ok in Hcall as [_ ->]. eauto.
Qed.


End ScalableCheck.


(** * The claims on sample inputs *)

Lemma Ok_pair {A B} (d : A * B) (r : Result (A * B)) :
  is_Ok r = true → r = Ok ((ok_or d r).1, (ok_or d r).2).
Proof. destruct r as [[a b]|]; [reflexivity | discriminate]. Qed.

Lemma Ok_triple {A B C} (d : A * B * C) (r : Result (A * B * C)) :
  is_Ok r = true → r = Ok (((ok_or d r).1.1, (ok_or d r).1.2), (ok_or d r).2).
Proof. destruct r as [[[a b] c]|]; [reflexivity | discriminate]. Qed.

Lemma Ok_answer {A B} (d : bool * A * B) (r : Result (bool * A * B)) (b : bool) :
  is_Ok r = true → (ok_or d r).1.1 = b →
  r = Ok ((b, (ok_or d r).1.2), (ok_or d r).2).
Proof. destruct r as [[[a x] y]|]; [intros _ <-; reflexivity | discriminate]. Qed.

(** [run]: the left-hand side, a closed term, evaluates to the right-hand
    side. *)
Ltac run :=
  lazymatch goal with |- _ = ?rhs => vm_cast_no_check (@eq_refl _ rhs) end.

Section Examples.
#[local] Existing Instance Sample.lib.

Lemma fnv64_length x : (8 ≤ length (Sample.fnv64 x))%nat.
Proof. unfold Sample.fnv64. rewrite length_map. simpl. lia. Qed.

Lemma digests_ok_nil : digests_ok [].
Proof. intros l ho Hl. by rewrite lookup_nil in Hl. Qed.

Lemma small_1_Ok : Filter.Add sample_filter (key "a") sample_heap = Ok (small_1.1, small_1.2).
Proof. apply (Ok_pair d1). run. Qed.

Lemma small_2_Ok : Filter_run ops_bc small_1.1 small_1.2 = Ok (small_2.1, small_2.2).
Proof. apply (Ok_pair d1). run. Qed.

Lemma read_1_Ok :
  Filter.Check sample_filter (key "a") sample_heap = Ok ((read_1.1.1, read_1.1.2), read_1.2).
Proof. apply (Ok_triple d2). run. Qed.

Lemma read_2_Ok :
  Filter_run (OpCheck <$> keys_bac) read_1.1.2 read_1.2 = Ok (read_2.1, read_2.2).
Proof. apply (Ok_pair d1). run. Qed.

Lemma new_0_Ok : New 1000 [] [] = Ok (new_0.1, new_0.2).
Proof. apply (Ok_pair d1). run. Qed.

Lemma new_1_Ok : Filter.Add new_0.1 (key "a") new_0.2 = Ok (new_1.1, new_1.2).
Proof. apply (Ok_pair d1). run. Qed.

Lemma new_2_Ok : Filter.Reset new_1.1 new_1.2 = Ok (new_2.1, new_2.2).
Proof. apply (Ok_pair d1). run. Qed.

Lemma part_0_Ok : partitioned.New 1000 sample_heap = Ok (part_0.1, part_0.2).
Proof. apply (Ok_pair d1). run. Qed.

Lemma part_1_Ok : partitioned.Add part_0.1 (key "a") part_0.2 = Ok (part_1.1, part_1.2).
Proof. apply (Ok_pair d1). run. Qed.

Lemma part_2_Ok : partitioned.Reset part_1.1 part_1.2 = Ok (part_2.1, part_2.2).
Proof. apply (Ok_pair d1). run. Qed.

Lemma part_3_Ok :
  partitioned.Check part_1.1 (key "a") part_1.2 = Ok ((true, part_3.1.2), part_3.2).
Proof. apply (Ok_answer d2); run. Qed.

Lemma part_4_Ok :
  partitioned.Check (partitioned.SetHasher part_1.1 (Some 1%nat)) (key "a") part_1.2
  = Ok ((false, part_4.1.2), part_4.2).
Proof. apply (Ok_answer d2); run. Qed.

Lemma scal_0_Ok : NewScalable 2 [] [] = Ok (scal_0.1, scal_0.2).
Proof. apply (Ok_pair d3). run. Qed.

Lemma scal_1_Ok : ScalableFilter.Add scal_0.1 (key "a") scal_0.2 = Ok (scal_1.1, scal_1.2).
Proof. apply (Ok_pair d3). run. Qed.

Lemma scal_2_Ok : Scalable_run calls_1 scal_1.1 scal_1.2 = Ok (scal_2.1, scal_2.2).
Proof. apply (Ok_pair d3). run. Qed.

Lemma scal_3_Ok : Scalable_run calls_2 scal_0.1 scal_0.2 = Ok (scal_3.1, scal_3.2).
Proof. apply (Ok_pair d3). run. Qed.

Lemma scal_0_heap : scal_0.2 = ([] ++ [cityhash_obj]) ++ [cityhash_obj].
Proof. run. Qed.

(** C3 ([Reset] leaves the counter).  After one [Add], [Reset] of bloom.go
    and [Reset] of partitioned.go both return a filter whose [Count()] is
    still 1. *)
Theorem Reset_keeps_counter :
  (∃ f σ f1 σ1 f2 σ2,
     New 1000 [] [] = Ok (f, σ)
     ∧ Filter.Add f (key "a") σ = Ok (f1, σ1)
     ∧ Filter.Reset f1 σ1 = Ok (f2, σ2)
     ∧ Filter.Count f2 = 1)
  ∧ (∃ bf σ bf1 σ1 bf2 σ2,
       partitioned.New 1000 sample_heap = Ok (bf, σ)
       ∧ partitioned.Add bf (key "a") σ = Ok (bf1, σ1)
       ∧ partitioned.Reset bf1 σ1 = Ok (bf2, σ2)
       ∧ partitioned.Count bf2 = 1).
Proof.
  split.
  - exists new_0.1, new_0.2, new_1.1, new_1.2, new_2.1, new_2.2.
    split; [exact new_0_Ok |]. split; [exact new_1_Ok |]. split; [exact new_2_Ok |].
    vm_compute. reflexivity.
  - exists part_0.1, part_0.2, part_1.1, part_1.2, part_2.1, part_2.2.
    split; [exact part_0_Ok |]. split; [exact part_1_Ok |]. split; [exact part_2_Ok |].
    vm_compute. reflexivity.
Qed.

(** C8, as stated, fails for [SetHasher]: a key that was added is found by
    [Check], and is no longer found once [SetHasher] has been called, with no
    [Reset] in between. *)
Lemma SetHasher_changes_Check :
  ∃ bf σ bf1 σ1,
    partitioned.New 1000 sample_heap = Ok (bf, σ)
    ∧ partitioned.Add bf (key "a") σ = Ok (bf1, σ1)
    ∧ (∃ bf2 σ2, partitioned.Check bf1 (key "a") σ1 = Ok ((true, bf2), σ2))
    ∧ (∃ bf2 σ2, partitioned.Check (partitioned.SetHasher bf1 (Some 1%nat)) (key "a") σ1
                 = Ok ((false, bf2), σ2)).
Proof.
  exists part_0.1, part_0.2, part_1.1, part_1.2.
  split; [exact part_0_Ok |]. split; [exact part_1_Ok |]. split.
  - exists part_3.1.2, part_3.2. exact part_3_Ok.
  - exists part_4.1.2, part_4.2. exact part_4_Ok.
Qed.

Lemma no_false_negatives_witness :
  (∃ f3 σ3, Filter.Check small_2.1 (key "a") small_2.2 = Ok ((true, f3), σ3))
  ∧ (∃ sbf3 σ3, ScalableFilter.Check scal_2.1 (key "a") scal_2.2 = Ok ((true, sbf3), σ3)).
Proof.
  split.
  - exact (proj1 no_false_negatives sample_filter (key "a") sample_heap
             small_1.1 small_1.2 ops_bc small_2.1 small_2.2 small_1_Ok small_2_Ok).
  - refine (proj2 no_false_negatives scal_0.1 (key "a") scal_0.2 scal_1.1 scal_1.2
              calls_1 scal_2.1 scal_2.2 fnv64_length _ scal_1_Ok _ scal_2_Ok).
    + rewrite scal_0_heap.
      do 2 (apply digests_ok_alloc; [exact fnv64_length |]). exact digests_ok_nil.
    + unfold calls_1. rewrite !not_elem_of_cons.
      split_and!; try discriminate. apply not_elem_of_nil.
Defined.




Lemma bit_indices_witness :
  (∃ f' σ', Filter.bits sample_filter (key "a") sample_heap = Ok (f', σ')
            ∧ Filter.bs f' !! N.to_nat 1
              = Some (spec_index (Sample.fnv64 (key "a")) (Filter.s sample_filter) 1))
  ∧ (∃ f' σ', partitioned.bits sample_filter (key "a") sample_heap = Ok (f', σ')
              ∧ Filter.bs f' !! N.to_nat 2
                = Some (spec_index (Sample.fnv64 (key "a")) (Filter.s sample_filter) 2)).
Proof.
  assert (hash_at sample_heap (Filter.h sample_filter) = Some (hash.mk Sample.fnv64 []))
    as Hat by reflexivity.
  assert (bits_ready sample_filter (Sample.fnv64 (key "a"))) as Hr.
  { unfold bits_ready. split; [apply fnv64_length |].
    split; [simpl; lia | right; discriminate]. }
  assert (N.to_nat (Filter.k sample_filter) ≤ length (Filter.b sample_filter))%nat as Hb
    by (simpl; lia).
  assert (Filter.k sample_filter ≤ 2 ^ 32) as Hk by (simpl; lia).
  assert (1 < Filter.k sample_filter) as H1 by reflexivity.
  assert (2 < Filter.k sample_filter) as H2 by reflexivity.
  split.
  - destruct (proj1 bit_indices sample_filter (key "a") sample_heap _ Hat Hr Hb Hk)
      as ((f' & σ' & Hbits & Hidx) & _).
    exists f', σ'. split; [exact Hbits | exact (Hidx 1 H1)].
  - destruct (proj2 bit_indices sample_filter (key "a") sample_heap _ Hat Hr Hb Hk)
      as ((f' & σ' & Hbits & Hidx) & _).
    exists f', σ'. split; [exact Hbits | exact (Hidx 2 H2)].
Defined.


Lemma part_5_Ok :
  partitioned.Reset (partitioned.SetErrorProbability part_1.1 0x1p-4) part_1.2
  = Ok (part_5.1, part_5.2).
Proof. apply (Ok_pair d1). run. Qed.

Lemma setters_effect_witness :
  Filter.k part_5.1 = partitioned.bloom_K 0x1p-4
  ∧ Filter.k (partitioned.SetErrorProbability part_1.1 0x1p-4) = Filter.k part_1.1.
Proof.
  destruct (proj1 (setters_effect part_1.1) 0x1p-4%float) as (Hkms & _ & _ & HReset).
  destruct (HReset part_1.2 part_5.1 part_5.2 part_5_Ok) as (Hk & _).
  split; [exact Hk |]. exact (f_equal (λ x, x.1.1) Hkms).
Defined.

Lemma Check_repeatable_witness :
  ∃ f3 σ3, Filter.Check read_2.1 (key "a") read_2.2 = Ok ((read_1.1.1, f3), σ3).
Proof.
  exact (Check_repeatable sample_filter (key "a") sample_heap read_1.1.1 read_1.1.2
           read_1.2 keys_bac read_2.1 read_2.2 read_1_Ok read_2_Ok).
Defined.

Lemma sub_filters_nonempty_witness : ScalableFilter.bfs scal_3.1 ≠ [].
Proof.
  exact (proj1 (sub_filters_nonempty 2 [] [] scal_0.1 scal_0.2 calls_2 scal_3.1 scal_3.2
                  scal_0_Ok scal_3_Ok)).
Defined.

(** ** Sample runs for the further properties *)

Lemma new_3_Ok : Filter_run ops_bc new_0.1 new_0.2 = Ok (new_3.1, new_3.2).
Proof. apply (Ok_pair d1). run. Qed.

Lemma new_4_Ok :
  Filter.Check new_3.1 (key "b") new_3.2 = Ok ((new_4.1.1, new_4.1.2), new_4.2).
Proof. apply (Ok_triple d2). run. Qed.

Lemma new_5_Ok : Filter.Reset new_3.1 new_3.2 = Ok (new_5.1, new_5.2).
Proof. apply (Ok_pair d1). run. Qed.

Lemma new_6_Ok :
  Filter.Check new_5.1 (key "b") new_5.2 = Ok ((new_6.1.1, new_6.1.2), new_6.2).
Proof. apply (Ok_triple d2). run. Qed.

Lemma small_3_Ok :
  Filter.Check small_1.1 (key "a") small_1.2 = Ok ((true, small_3.1.2), small_3.2).
Proof. apply (Ok_answer d2); run. Qed.

Lemma small_4_Ok : Filter_run ops_bc small_3.1.2 small_3.2 = Ok (small_4.1, small_4.2).
Proof. apply (Ok_pair d1). run. Qed.

Lemma small_5_Ok : Filter.Add small_1.1 (key "b") small_1.2 = Ok (small_5.1, small_5.2).
Proof. apply (Ok_pair d1). run. Qed.

Lemma part_6_Ok :
  partitioned.Check part_0.1 (key "a") part_0.2 = Ok ((part_6.1.1, part_6.1.2), part_6.2).
Proof. apply (Ok_triple d2). run. Qed.

Lemma part_7_Ok : partitioned.New 0 sample_heap = Ok (part_7.1, part_7.2).
Proof. apply (Ok_pair d1). run. Qed.

Lemma scal_4_Ok :
  ScalableFilter.Check scal_0.1 (key "a") scal_0.2 = Ok ((scal_4.1.1, scal_4.1.2), scal_4.2).
Proof. apply (Ok_triple d4). run. Qed.

Lemma shared_0_Ok :
  NewScalable 2 ([] ++ with_fnv :: []) sample_heap = Ok (shared_0.1, shared_0.2).
Proof. apply (Ok_pair d3). run. Qed.

Lemma shared_1_Ok : Scalable_run calls_3 shared_0.1 shared_0.2 = Ok (shared_1.1, shared_1.2).
Proof. apply (Ok_pair d3). run. Qed.


Lemma Filter_Check_exact_witness :
  ∃ ho, hash_at new_0.2 (Filter.h new_0.1) = Some ho
        ∧ (new_4.1.1 = true ↔
           ∀ i, (i < N.to_nat (Filter.k new_0.1))%nat →
             ∃ Y, Y ∈ added ops_bc
                  ∧ index_of (hash.digest ho Y) (Filter.s new_0.1) i
                    = index_of (hash.digest ho (key "b")) (Filter.s new_0.1) i).
Proof.
  exact (Filter_Check_exact 1000 [] [] new_0.1 new_0.2 ops_bc new_3.1 new_3.2 (key "b")
           new_4.1.1 new_4.1.2 new_4.2 new_0_Ok new_3_Ok new_4_Ok).
Defined.

Lemma Reset_forgets_witness :
  ∃ ho, hash_at new_5.2 (Filter.h new_0.1) = Some ho
        ∧ (new_6.1.1 = true ↔
           ∀ i, (i < N.to_nat (Filter.k new_0.1))%nat →
             ∃ Y, Y ∈ added []
                  ∧ index_of (hash.digest ho Y) (Filter.s new_0.1) i
                    = index_of (hash.digest ho (key "b")) (Filter.s new_0.1) i).
Proof.
  exact (Reset_forgets 1000 [] [] new_0.1 new_0.2 ops_bc new_3.1 new_3.2 new_5.1 new_5.2
           [] new_5.1 new_5.2 (key "b") new_6.1.1 new_6.1.2 new_6.2
           new_0_Ok new_3_Ok new_5_Ok eq_refl new_6_Ok).
Defined.

Lemma positives_stay_witness :
  ∃ f3 σ3, Filter.Check small_4.1 (key "a") small_4.2 = Ok ((true, f3), σ3).
Proof.
  exact (positives_stay small_1.1 (key "a") small_1.2 small_3.1.2 small_3.2 ops_bc
           small_4.1 small_4.2 small_3_Ok small_4_Ok).
Defined.

Lemma Filter_Count_adds_witness :
  Filter.Count new_3.1 = N.of_nat (length (added ops_bc)) mod 2 ^ 64.
Proof.
  exact (Filter_Count_adds 1000 [] [] new_0.1 new_0.2 ops_bc new_3.1 new_3.2 new_0_Ok new_3_Ok).
Defined.

Lemma Add_again_witness :
  Filter.Add small_1.1 (key "a") small_1.2
  = Ok (Filter.with_c small_1.1 (u64 (Filter.c small_1.1 + 1)), small_1.2).
Proof.
  exact (Add_again sample_filter (key "a") sample_heap small_1.1 small_1.2 small_1_Ok).
Defined.

Lemma Add_commutes_witness :
  ∃ g1 τ1 g2 τ2,
    Filter.Add sample_filter (key "b") sample_heap = Ok (g1, τ1)
    ∧ Filter.Add g1 (key "a") τ1 = Ok (g2, τ2)
    ∧ Filter.b g2 = Filter.b small_5.1 ∧ Filter.Count g2 = Filter.Count small_5.1.
Proof.
  exact (Add_commutes sample_filter (key "a") (key "b") sample_heap small_1.1 small_1.2
           small_5.1 small_5.2 small_1_Ok small_5_Ok).
Defined.

Lemma part_7_shape :
  hash_at part_7.2 (Filter.h part_7.1) = Some (hash.mk Sample.fnv64 [])
  ∧ N.to_nat (Filter.k part_7.1) = length (Filter.bs part_7.1)
  ∧ (Filter.k part_7.1 =? 0) = false ∧ Filter.s part_7.1 = 0.
Proof. split_and!; run. Qed.

Lemma zero_size_panics_witness :
  Filter.Add part_7.1 (key "a") part_7.2 = Panic divide_by_zero
  ∧ Filter.Check part_7.1 (key "a") part_7.2 = Panic divide_by_zero.
Proof.
  destruct part_7_shape as (Hat & Hk & Hk0 & Hs).
  refine (zero_size_panics part_7.1 (key "a") part_7.2 (hash.mk Sample.fnv64 [])
            Hat (fnv64_length _) _ _ Hs).
  - rewrite Hk. lia.
  - intros E. rewrite E in Hk0. discriminate.
Defined.


Lemma partitioned_starts_empty_witness : part_6.1.1 = true ↔ Filter.k part_0.1 = 0.
Proof.
  exact (partitioned_starts_empty 1000 sample_filter sample_heap part_0.1 part_0.2 (key "a")
           part_6.1.1 part_6.1.2 part_6.2 (or_introl part_0_Ok) part_6_Ok).
Defined.

Lemma Scalable_starts_empty_witness :
  ∃ f, ScalableFilter.bfs scal_0.1 = [f] ∧ (scal_4.1.1 = true ↔ Filter.k f = 0).
Proof.
  exact (Scalable_starts_empty 2 [] sample_scalable [] scal_0.1 scal_0.2 (key "a")
           scal_4.1.1 scal_4.1.2 scal_4.2 (or_introl scal_0_Ok) scal_4_Ok).
Defined.

Lemma Scalable_Count_adds_witness :
  ScalableFilter.Count scal_3.1 = adds_since_reset calls_2 0 mod 2 ^ 64.
Proof.
  exact (Scalable_Count_adds 2 [] [] scal_0.1 scal_0.2 calls_2 scal_3.1 scal_3.2
           scal_0_Ok scal_3_Ok).
Defined.

Lemma Scalable_Check_read_only_witness :
  Forall2 filter_same (ScalableFilter.bfs scal_0.1) (ScalableFilter.bfs scal_4.1.2)
  ∧ ScalableFilter.Count scal_4.1.2 = ScalableFilter.Count scal_0.1.
Proof.
  destruct (Scalable_Check_read_only scal_0.1 (key "a") scal_0.2 scal_4.1.1 scal_4.1.2
              scal_4.2 scal_4_Ok) as (Hfs & Hc & _).
  split; [exact Hfs | exact Hc].
Defined.


Lemma sub_filters_share_hash_witness :
  Forall (λ f, Filter.h f = Some 0%nat) (ScalableFilter.bfs shared_1.1).
Proof.
  exact (sub_filters_share_hash 0 sample_heap with_fnv sample_heap 2 [] [] sample_heap
           shared_0.1 shared_0.2 calls_3 shared_1.1 shared_1.2
           eq_refl (List.Forall_nil _) shared_0_Ok shared_1_Ok).
Defined.

Lemma Scalable_Count_sum_witness :
  ScalableFilter.Count scal_3.1
  = foldr (λ f acc, Filter.Count f + acc) 0 (ScalableFilter.bfs scal_3.1) mod 2 ^ 64.
Proof.
  exact (Scalable_Count_sum 2 [] [] scal_0.1 scal_0.2 calls_2 scal_3.1 scal_3.2
           scal_0_Ok scal_3_Ok).
Defined.

Lemma Scalable_Check_exact_witness :
  scal_4.1.1 = true ↔ ∃ f, f ∈ ScalableFilter.bfs scal_0.1 ∧ sub_filter_has scal_0.2 f (key "a").
Proof.
  exact (Scalable_Check_exact scal_0.1 (key "a") scal_0.2 scal_4.1.1 scal_4.1.2 scal_4.2
           scal_4_Ok).
Defined.

Lemma sub_filters_sized_witness :
  ScalableFilter.n scal_3.1 = 2
  ∧ Forall (λ f, Filter.n f = 2 ∧ Filter.k f = k (Filter.e f)
                 ∧ Filter.m f = m 2 (Filter.p f) (Filter.e f)
                 ∧ Filter.s f = s (Filter.m f) (Filter.k f)
                 ∧ length (Filter.b f) = N.to_nat (Filter.k f))
      (ScalableFilter.bfs scal_3.1).
Proof.
  exact (sub_filters_sized 2 [] [] scal_0.1 scal_0.2 calls_2 scal_3.1 scal_3.2
           scal_0_Ok scal_3_Ok).
Defined.


End Examples.
